(** * metanl.wordlist: word-frequency lists

    A shallow embedding of [metanl/wordlist.py] (Python 2) and the
    properties of its loaders, its cache, its merge and its lookups.

    Modelling conventions.
    - A Python [float] is an exact rational ([Qc], canonical fractions, so
      that equal numbers are equal terms): [+], [*] and [/] do not round,
      and there are no infinities and no NaN.  The theorems on numbers say
      which operations are applied to which operands and how the results
      compare.  A cancellation such as [(x / y) * y = x] holds of rationals
      and not of binary64 numbers; where the rounding decides a property,
      the arithmetic is run on binary64 numbers (section Binary floating
      point).
    - A Python [str] is a [string] (a sequence of bytes); encodings are the
      identity.
    - A [dict] is a [gmap string Qc]; the order in which a dict is iterated
      is the order of [map_to_list].
    - An exception is a value of [exn]; a computation that may raise returns
      a [result].
    - Objects that have an identity ([Wordlist] instances, the lists a
      [Wordlist] hands out, the module-level [CACHE]) live in an explicit
      [state]; see the section Objects. *)

From stdpp Require Import gmap strings list fin_maps numbers sorting.
From Stdlib Require Import QArith Qcanon Ascii Lqa PrimFloat.

Local Open Scope Qc_scope.

(** ** Exceptions *)

(** The reasons for which the code raises [ValueError]. *)
Inductive value_error :=
  | Unpack            (* [word, freq = ...]: not exactly two fields *)
  | InvalidFloat      (* [float(freq)]: not a number *)
  | EmptyList         (* "This list is empty." *)
  | UnknownFormat     (* "I don't recognize the format of this wordlist file." *)
  | NotSingleWord.    (* "get_frequency only can only look up single words" *)

Inductive exn :=
  | IOError
  | ZeroDivisionError
  | ValueError (why : value_error)
  | NoSuchObject.  (* no Python exception: a reference to no object *)

Inductive result (A : Type) :=
  | OK (a : A)
  | Raise (e : exn).
Arguments OK {A} a.
Arguments Raise {A} e.

Global Instance value_error_eq_dec : EqDecision value_error.
Proof. solve_decision. Defined.
Global Instance exn_eq_dec : EqDecision exn.
Proof. solve_decision. Defined.

Global Instance result_ret : MRet result := @OK.
Global Instance result_bind : MBind result := λ A B f r,
  match r with OK a => f a | Raise e => Raise e end.

Global Instance result_eq_dec {A} `{EqDecision A} : EqDecision (result A).
Proof. solve_decision. Defined.

Definition is_OK {A} (r : result A) : Prop :=
  match r with OK _ => True | Raise _ => False end.

(** ** Numbers *)

Definition Qc_of_N (n : N) : Qc := Qc_of_Z (Z.of_N n).

(** [x / y] on floats: division by zero raises.  The quotient is the exact
    one; Python rounds it to the nearest binary64 number. *)
Definition float_div (x y : Qc) : result Qc :=
  if decide (y = 0) then Raise ZeroDivisionError else OK (x / y).

Definition Qc_max (x y : Qc) : Qc := if decide (x < y) then y else x.

(** [max(seq)] on a non-empty sequence: the first element, replaced by each
    later element that is greater. *)
Definition py_max (x : Qc) (xs : list Qc) : Qc := foldl Qc_max x xs.

(** ** Strings: the [str] methods the code uses *)

Definition newline : ascii := "010"%char.
Definition tab : ascii := "009"%char.
Definition comma : ascii := ","%char.
Definition space : ascii := " "%char.

(** [c in s] for a one-character [c]. *)
Fixpoint contains_char (c : ascii) (s : string) : bool :=
  match s with
  | "" => false
  | String a s' => if decide (a = c) then true else contains_char c s'
  end.

(** [s.rstrip()]: drop the trailing whitespace. *)
Fixpoint rstrip (s : string) : string :=
  match s with
  | "" => ""
  | String a s' =>
      match rstrip s' with
      | "" => if Ascii.is_space a then "" else String a ""
      | r => String a r
      end
  end.

(** [s.lstrip()]. *)
Fixpoint lstrip (s : string) : string :=
  match s with
  | "" => ""
  | String a s' => if Ascii.is_space a then lstrip s' else s
  end.

(** [s.split(c)] for a one-character separator: always at least one field. *)
Fixpoint split (c : ascii) (s : string) : list string :=
  match s with
  | "" => [""]
  | String a s' =>
      if decide (a = c) then "" :: split c s'
      else match split c s' with
           | [] => [String a ""]
           | f :: fs => String a f :: fs
           end
  end.

(** [for line in stream]: the lines of a file, each with its newline, the
    last one possibly without. *)
Fixpoint readlines (s : string) : list string :=
  match s with
  | "" => []
  | String a s' =>
      if decide (a = newline) then String a "" :: readlines s'
      else match readlines s' with
           | [] => [String a ""]
           | l :: ls => String a l :: ls
           end
  end.

Definition lower_char (a : ascii) : ascii :=
  let n := N_of_ascii a in
  if (65 <=? n)%N && (n <=? 90)%N then ascii_of_N (n + 32) else a.

(** [s.lower()] on a byte string. *)
Fixpoint lower (s : string) : string :=
  match s with
  | "" => ""
  | String a s' => String (lower_char a) (lower s')
  end.

(** [a, b = fields]. *)
Definition unpack2 (fields : list string) : result (string * string) :=
  match fields with
  | [a; b] => OK (a, b)
  | _ => Raise (ValueError Unpack)
  end.

(** ** Numbers as text: [float(s)] and ["%1.1f" % x] *)

Definition digit_val (a : ascii) : option N :=
  let n := N_of_ascii a in
  if (48 <=? n)%N && (n <=? 57)%N then Some (n - 48)%N else None.

(** The value of a run of decimal digits, read from the left. *)
Fixpoint digits_val (acc : N) (s : string) : option N :=
  match s with
  | "" => Some acc
  | String a s' => d ← digit_val a; digits_val (10 * acc + d) s'
  end.

(** An optional leading sign: is it a minus, and what follows. *)
Definition take_sign (s : string) : bool * string :=
  match s with
  | String "-" r => (true, r)
  | String "+" r => (false, r)
  | _ => (false, s)
  end.

(** The text before the first [e] or [E], and the text after it if any. *)
Fixpoint split_exponent (s : string) : string * option string :=
  match s with
  | "" => ("", None)
  | String a s' =>
      if decide (a = "e"%char ∨ a = "E"%char) then ("", Some s')
      else let '(m, e) := split_exponent s' in (String a m, e)
  end.

(** [digits], [digits.], [.digits] or [digits.digits]. *)
Definition mantissa (m : string) : option Qc :=
  match split "." m with
  | [ip] =>
      if decide (ip = "") then None
      else i ← digits_val 0 ip; Some (Qc_of_N i)
  | [ip; fp] =>
      if decide (ip = "" ∧ fp = "") then None
      else i ← digits_val 0 ip; f ← digits_val 0 fp;
           Some (Qc_of_N i + Qc_of_N f / Qc_of_N (10 ^ N.of_nat (String.length fp)))
  | _ => None
  end.

Definition exponent (e : option string) : option Z :=
  match e with
  | None => Some 0%Z
  | Some s =>
      let '(neg, ds) := take_sign s in
      if decide (ds = "") then None
      else n ← digits_val 0 ds;
           Some (if neg : bool then (- Z.of_N n)%Z else Z.of_N n)
  end.

Definition pow10 (k : Z) : Qc :=
  if decide (0 ≤ k)%Z then Qc_of_Z (10 ^ k) else / Qc_of_Z (10 ^ (- k)).

(** [float(s)] for decimal literals: surrounding whitespace, a sign, a
    mantissa and an exponent.  The literals [inf], [infinity] and [nan], which
    Python accepts, have no rational value and are rejected here. *)
Definition py_float (s : string) : result Qc :=
  let '(neg, body) := take_sign (lstrip (rstrip s)) in
  let '(m, e) := split_exponent body in
  match mantissa m, exponent e with
  | Some v, Some k =>
      let x := v * pow10 k in OK (if neg : bool then - x else x)
  | _, _ => Raise (ValueError InvalidFloat)
  end.

(** The integer nearest to [q], ties going to the even one. *)
Definition round_half_even (q : Q) : Z :=
  let n := Qnum q in
  let d := Z.pos (Qden q) in
  let f := (n / d)%Z in
  match (2 * (n mod d) ?= d)%Z with
  | Lt => f
  | Gt => (f + 1)%Z
  | Eq => if Z.even f then f else (f + 1)%Z
  end.

Definition digit_char (d : N) : ascii := ascii_of_N (48 + d).

Fixpoint digits_of (fuel : nat) (n : N) (acc : string) : string :=
  match fuel with
  | O => acc
  | S fuel' =>
      let acc' := String (digit_char (n mod 10)) acc in
      if (n <? 10)%N then acc' else digits_of fuel' (n / 10) acc'
  end.

(** ["%d" % n] for a natural number. *)
Definition string_of_N (n : N) : string :=
  digits_of (S (N.to_nat (N.log2 n))) n "".

Definition Qc_abs (x : Qc) : Qc := if decide (x < 0) then - x else x.

(** The number of tenths printed by ["%1.1f" % x], sign apart. *)
Definition tenths (x : Qc) : N :=
  Z.to_N (round_half_even (this (Qc_of_Z 10 * Qc_abs x)%Qc)).

(** ["%1.1f" % x]: one digit after the point, the value rounded to the
    nearest tenth. *)
Definition format_1f (x : Qc) : string :=
  (if decide (x < 0) then "-" else "")
  +:+ string_of_N (tenths x / 10) +:+ "." +:+ string_of_N (tenths x mod 10).


(** ** The [Wordlist] class: what its methods compute

    A [Wordlist] wraps a dict [worddict] from words to frequencies.  The
    functions of this section are the bodies of its methods, as functions of
    that dict; the memoisation by [lazy_property] and the identity of the
    lists handed out are modelled in the section Objects. *)

Section wordlist.
Implicit Types (worddict : gmap string Qc) (word : string).

(** [self.worddict.keys()] and [self.worddict.itervalues()]. *)
Definition keys worddict : list string := (map_to_list worddict).*1.
Definition itervalues worddict : list Qc := (map_to_list worddict).*2.

(** [self.worddict.get(word, default)]. *)
Definition get worddict word (default : Qc) : Qc :=
  from_option id default (worddict !! word).

(** [self[word]], that is [self.get(word)] with the default [0]. *)
Definition getitem worddict word : Qc := get worddict word 0.

Definition len worddict : nat := size worddict.

Definition contains worddict word : bool :=
  bool_decide (is_Some (worddict !! word)).

(** The sort key [(-self.worddict[word], word)]. *)
Definition sort_key worddict word : Qc * string :=
  (- from_option id 0 (worddict !! word), word).

(** The order of Python on such pairs: by the first component, then by
    the second. *)
Definition key_le (k1 k2 : Qc * string) : Prop :=
  k1.1 < k2.1 ∨ (k1.1 = k2.1 ∧ (k1.2 ≤ k2.2)%string).

Global Instance key_le_dec : RelDecision key_le.
Proof. intros k1 k2. unfold key_le. apply _. Defined.

(** [sorted(xs, key=f)], a stable sort. *)
Definition sorted {A} (key : A → Qc * string) (xs : list A) : list A :=
  merge_sort (λ x y, key_le (key x) (key y)) xs.

(** The body of the property [sorted_words]. *)
Definition sorted_words worddict : list string :=
  sorted (sort_key worddict) (keys worddict).

(** [words()]: [list(self.sorted_words)]. *)
Definition words worddict : list string := sorted_words worddict.

(** [iteritems()], run to its end. *)
Definition iteritems worddict : list (string * Qc) :=
  (λ word, (word, from_option id 0 (worddict !! word)))
    <$> sorted_words worddict.

(** The body of the property [max_freq]. *)
Definition max_freq worddict : result Qc :=
  if decide (len worddict = 0%nat) then Raise (ValueError EmptyList)
  else match itervalues worddict with
       | [] => Raise (ValueError EmptyList)
       | v :: vs => OK (py_max v vs)
       end.
End wordlist.

(** ** Loading, saving and merging *)

(** One line of the standard format: [word, freq = line.rstrip().split(sep)]
    followed by [float(freq)]. *)
Definition parse_line (sep : ascii) (line : string) : result (string * Qc) :=
  '(word, freq) ← unpack2 (split sep (rstrip line));
  freq ← py_float freq;
  OK (word, freq).

(** The loop of [Wordlist._load_stream]. *)
Fixpoint _load_stream_loop (lines : list string) (worddict : gmap string Qc)
    : result (gmap string Qc) :=
  match lines with
  | [] => OK worddict
  | line :: lines' =>
      '(word, freq) ← parse_line comma line;
      _load_stream_loop lines' (<[word := freq]> worddict)
  end.

Definition _load_stream (stream : string) : result (gmap string Qc) :=
  _load_stream_loop (readlines stream) ∅.

(** The two formats [_load_new_stream] tells apart: [mode == 1] and
    [mode == 2]. *)
Inductive mode :=
  | Linear        (* 1: comma-separated linear frequency values *)
  | Logarithmic.  (* 2: tab-separated logarithmic values in dB *)

Definition detect_mode (line : string) : result mode :=
  if contains_char tab line then OK Logarithmic
  else if contains_char comma line then OK Linear
  else Raise (ValueError UnknownFormat).

(** [defaultdict] update [d[key] += x], the missing entry counting as [0]. *)
Definition add_to (key : string) (x : Qc) (d : gmap string Qc)
    : gmap string Qc :=
  <[key := from_option id 0 (d !! key) + x]> d.

Section external.
(** [metanl.general.preprocess_text], a collaborator of this module. *)
Variable preprocess_text : string → string.
(** [x ↦ 10 ** x] on floats, which has no rational counterpart. *)
Variable exp10 : Qc → Qc.

(** The word and the frequency read from one line in a given mode. *)
Definition parse_new_line (m : mode) (line : string)
    : result (string * Qc) :=
  match m with
  | Linear => parse_line comma line
  | Logarithmic =>
      '(word, freq) ← parse_line tab line;
      OK (word, exp10 (freq / Qc_of_Z 10))
  end.

(** [preprocess_text(word).lower()]. *)
Definition normalize (word : string) : string :=
  lower (preprocess_text word).

(** The loop of [Wordlist._load_new_stream]. *)
Fixpoint _load_new_stream_loop (lines : list string) (m : option mode)
    (worddict : gmap string Qc) : result (gmap string Qc) :=
  match lines with
  | [] => OK worddict
  | line :: lines' =>
      m ← match m with None => detect_mode line | Some m => OK m end;
      '(word, freq) ← parse_new_line m line;
      let word := normalize word in
      _load_new_stream_loop lines' (Some m) (add_to word freq worddict)
  end.

Definition _load_new_stream (stream : string) : result (gmap string Qc) :=
  _load_new_stream_loop (readlines stream) None ∅.
End external.

(** The line [save] prints for a word. *)
Definition save_line (worddict : gmap string Qc) (word : string) : string :=
  word +:+ "," +:+ format_1f (get worddict word 0) +:+ String newline "".

(** [save(filename)]: the text written to the file. *)
Definition save (worddict : gmap string Qc) : string :=
  String.concat "" (save_line worddict <$> sorted_words worddict).

(** One entry of [weighted_lists]: a word list, a suffix and the maximum to
    scale to, [None] for no scaling. *)
Definition weighted_list : Type := gmap string Qc * string * option Qc.

(** The factor [merge_lists] computes for one entry. *)
Definition merge_factor (sublist : gmap string Qc) (weight : option Qc)
    : result Qc :=
  match weight with
  | Some w =>
      if decide (0 < len sublist)%nat
      then m ← max_freq sublist; float_div w m
      else OK 1
  | None => OK 1
  end.

(** The inner loop of [merge_lists]. *)
Definition merge_add (suffix : string) (factor : Qc)
    (totals : gmap string Qc) (items : list (string * Qc))
    : gmap string Qc :=
  foldl (λ totals '(word, freq), add_to (word +:+ suffix) (freq * factor) totals)
        totals items.

Fixpoint merge_lists_loop (weighted_lists : list weighted_list)
    (totals : gmap string Qc) : result (gmap string Qc) :=
  match weighted_lists with
  | [] => OK totals
  | (sublist, suffix, weight) :: rest =>
      factor ← merge_factor sublist weight;
      merge_lists_loop rest (merge_add suffix factor totals (iteritems sublist))
  end.

Definition merge_lists (weighted_lists : list weighted_list)
    : result (gmap string Qc) :=
  merge_lists_loop weighted_lists ∅.

(** ** Objects: instances, the lists they hand out, and [CACHE] *)

Definition loc := positive.

(** A [Wordlist] instance: its dict and the two attributes that
    [lazy_property] stores on first access ([None] before it).  The
    memoised [sorted_words] is a list object, held by reference. *)
Record Wordlist := {
  worddict : gmap string Qc;
  sorted_words_attr : option loc;
  max_freq_attr : option Qc
}.

(** The state of the process: the module-level dict [CACHE], the [Wordlist]
    instances, the list objects, and the names of the resources opened so
    far, latest first. *)
Record state := {
  CACHE : gmap string loc;
  wordlists : gmap loc Wordlist;
  lists : gmap loc (list string);
  opened : list string
}.

Definition initial_state : state :=
  {| CACHE := ∅; wordlists := ∅; lists := ∅; opened := [] |}.

(** Computations: they read and update the state, and return or raise. *)
Definition M (A : Type) : Type := state → result A * state.

Global Instance M_ret : MRet M := λ A a σ, (OK a, σ).
Global Instance M_bind : MBind M := λ A B f m σ,
  match m σ with
  | (OK a, σ') => f a σ'
  | (Raise e, σ') => (Raise e, σ')
  end.

Definition raise {A} (e : exn) : M A := λ σ, (Raise e, σ).

Definition lift {A} (r : result A) : M A := λ σ, (r, σ).

(** [Wordlist(worddict)]: a new instance. *)
Definition new_Wordlist (d : gmap string Qc) : M loc := λ σ,
  let self := fresh (dom (wordlists σ)) in
  (OK self,
   {| CACHE := CACHE σ;
      wordlists := <[self := {| worddict := d; sorted_words_attr := None;
                                max_freq_attr := None |}]> (wordlists σ);
      lists := lists σ;
      opened := opened σ |}).

(** A new list object with the given elements. *)
Definition new_list (l : list string) : M loc := λ σ,
  let r := fresh (dom (lists σ)) in
  (OK r,
   {| CACHE := CACHE σ; wordlists := wordlists σ;
      lists := <[r := l]> (lists σ); opened := opened σ |}).

(** In-place update of a list object: its elements become [l]. *)
Definition set_list (r : loc) (l : list string) (σ : state) : state :=
  {| CACHE := CACHE σ; wordlists := wordlists σ;
     lists := <[r := l]> (lists σ); opened := opened σ |}.

Definition set_wordlist (self : loc) (w : Wordlist) : M () := λ σ,
  (OK (),
   {| CACHE := CACHE σ; wordlists := <[self := w]> (wordlists σ);
      lists := lists σ; opened := opened σ |}).

(** Reading through a reference.  A reference to no object cannot arise in
    a run from [initial_state]; the model gives such a read the result
    [Raise NoSuchObject]. *)
Definition read_wordlist (self : loc) : M Wordlist := λ σ,
  match wordlists σ !! self with
  | Some w => (OK w, σ)
  | None => (Raise NoSuchObject, σ)
  end.

Definition read_list (r : loc) : M (list string) := λ σ,
  match lists σ !! r with
  | Some l => (OK l, σ)
  | None => (Raise NoSuchObject, σ)
  end.

(** [self.sorted_words]: [lazy_property.__get__] runs on the first access
    only, and stores the list it computed on the instance. *)
Definition get_sorted_words (self : loc) : M loc :=
  w ← read_wordlist self;
  match sorted_words_attr w with
  | Some r => mret r
  | None =>
      r ← new_list (sorted_words (worddict w));
      _ ← set_wordlist self {| worddict := worddict w;
                               sorted_words_attr := Some r;
                               max_freq_attr := max_freq_attr w |};
      mret r
  end.

(** [self.max_freq], memoised in the same way; nothing is stored when the
    body raises. *)
Definition get_max_freq (self : loc) : M Qc :=
  w ← read_wordlist self;
  match max_freq_attr w with
  | Some m => mret m
  | None =>
      m ← lift (max_freq (worddict w));
      _ ← set_wordlist self {| worddict := worddict w;
                               sorted_words_attr := sorted_words_attr w;
                               max_freq_attr := Some m |};
      mret m
  end.

(** [self.words()]: [list(self.sorted_words)], a new list object. *)
Definition Wordlist_words (self : loc) : M loc :=
  r ← get_sorted_words self;
  l ← read_list r;
  new_list l.

(** [self.iteritems()], run to its end. *)
Definition Wordlist_iteritems (self : loc) : M (list (string * Qc)) :=
  r ← get_sorted_words self;
  l ← read_list r;
  w ← read_wordlist self;
  mret ((λ word, (word, from_option id 0 (worddict w !! word))) <$> l).

(** [self[word]]. *)
Definition Wordlist_getitem (self : loc) (word : string) : M Qc :=
  w ← read_wordlist self;
  mret (getitem (worddict w) word).

(** ['data/wordlists/%s' % filename], the resource [load] reads. *)
Definition resource_name (filename : string) : string :=
  "data/wordlists/" +:+ filename.

Section package.
(** The data files of the package: [pkg_resources.resource_stream], from a
    resource name to the text of the file, [None] when there is none. *)
Variable resource_stream : string → option string.
Variable preprocess_text : string → string.

Definition open_resource (name : string) : M string := λ σ,
  let σ' := {| CACHE := CACHE σ; wordlists := wordlists σ;
               lists := lists σ; opened := name :: opened σ |} in
  match resource_stream name with
  | Some text => (OK text, σ')
  | None => (Raise IOError, σ')
  end.

Definition set_CACHE (filename : string) (wordlist : loc) : M () := λ σ,
  (OK (),
   {| CACHE := <[filename := wordlist]> (CACHE σ);
      wordlists := wordlists σ; lists := lists σ; opened := opened σ |}).

(** [Wordlist.load(filename)]. *)
Definition load (filename : string) : M loc := λ σ,
  match CACHE σ !! filename with
  | Some wordlist => (OK wordlist, σ)
  | None =>
      (stream ← open_resource (resource_name filename);
       d ← lift (_load_stream stream);
       wordlist ← new_Wordlist d;
       _ ← set_CACHE filename wordlist;
       mret wordlist) σ
  end.

(** [get_wordlist(lang)]. *)
Definition wordlist_filename (lang : string) : string :=
  if decide (lang = "en") then "multi-en.txt"
  else if decide (lang = "en-books") then "google-unigrams.txt"
  else if decide (lang = "en-twitter") then "twitter.txt"
  else if decide (lang = "multi") then "multilingual.txt"
  else "leeds-internet-" +:+ lang +:+ ".txt".

Definition get_wordlist (lang : string) : M loc :=
  load (wordlist_filename lang).

(** [get_frequency(word, lang, default_freq, scale)].  The [try] covers the
    call of [get_wordlist] only. *)
Definition get_frequency (word lang : string) (default_freq scale : Qc)
    : M Qc := λ σ,
  match get_wordlist lang σ with
  | (Raise ZeroDivisionError, σ') => (OK default_freq, σ')
  | (Raise e, σ') => (Raise e, σ')
  | (OK freqs, σ') =>
      (m ← get_max_freq freqs;
       factor ← lift (float_div scale m);
       if contains_char space word then raise (ValueError NotSingleWord)
       else
         let lookup := normalize preprocess_text word in
         f ← Wordlist_getitem freqs lookup;
         mret (factor * f + default_freq)) σ'
  end.

(** A run of [load] calls, one after the other, results dropped. *)
Definition loads (filenames : list string) (σ : state) : state :=
  foldl (λ σ filename, (load filename σ).2) σ filenames.
End package.

(** ** Vocabulary of the properties *)

(** Strict lexicographic order on words. *)
Definition str_lt (s1 s2 : string) : Prop := String.ltb s1 s2.

(** [w1] is listed before [w2]: it is more frequent, or as frequent and
    first in lexicographic order. *)
Definition ranks_before (worddict : gmap string Qc) (w1 w2 : string) : Prop :=
  getitem worddict w2 < getitem worddict w1
  ∨ (getitem worddict w1 = getitem worddict w2 ∧ str_lt w1 w2).

(** The frequencies that the entries of a list give for a key, in order. *)
Definition entries_for (key : string) (entries : list (string * Qc))
    : list Qc :=
  (filter (λ e, e.1 = key) entries).*2.

(** Last occurrence wins. *)
Definition last_entry (key : string) (entries : list (string * Qc))
    : option Qc :=
  last (entries_for key entries).

(** The sum of a list of frequencies, from a zero start. *)
Definition sum_from_zero (xs : list Qc) : Qc := foldl Qcplus 0 xs.

(** Occurrences are summed; no occurrence, no entry. *)
Definition summed (xs : list Qc) : option Qc :=
  match xs with [] => None | _ => Some (sum_from_zero xs) end.

(** The entry of a key after the frequencies [xs] were added to it, one by
    one, [o] being its entry before. *)
Definition accumulated (o : option Qc) (xs : list Qc) : option Qc :=
  match xs with
  | [] => o
  | _ => Some (foldl Qcplus (from_option id 0 o) xs)
  end.

(** What the entries of one merge spec, scaled by [factor], contribute to
    the key [key]. *)
Definition contribution (key : string) (spec : weighted_list) (factor : Qc)
    : list Qc :=
  entries_for key
    ((λ '(word, freq), (word +:+ spec.1.2, freq * factor))
       <$> iteritems spec.1.1).

(** The contributions of a sequence of merge specs to a key, in order. *)
Definition contributions (key : string)
    (specs : list (weighted_list * Qc)) : list Qc :=
  '(spec, factor) ← specs; contribution key spec factor.



(** A state is consistent when [CACHE] holds references to instances and a
    memoised [max_freq] is the one of the dict; every state of a run from
    [initial_state] is. *)
Definition state_ok (σ : state) : Prop :=
  (∀ filename t, CACHE σ !! filename = Some t → is_Some (wordlists σ !! t))
  ∧ (∀ t w m, wordlists σ !! t = Some w → max_freq_attr w = Some m →
              max_freq (worddict w) = OK m).

(** A word with a whitespace character in it. *)
Fixpoint contains_whitespace (s : string) : bool :=
  match s with
  | "" => false
  | String a s' => Ascii.is_space a || contains_whitespace s'
  end.

(** The entries of the log of opened resources that are [name]. *)
Definition reads_of (name : string) (names : list string) : list string :=
  filter (λ n, n = name) names.

(** The state after a resource was opened. *)
Definition opening (name : string) (σ : state) : state :=
  {| CACHE := CACHE σ; wordlists := wordlists σ; lists := lists σ;
     opened := name :: opened σ |}.

(** The three ways a call of [load] can go: the file is cached; it is not
    and opening or parsing it raises; it is not and a new instance is made
    and cached. *)
Inductive load_outcome (resource_stream : string → option string)
    (filename : string) (σ : state) : result loc * state → Prop :=
  | load_hit t :
      CACHE σ !! filename = Some t →
      load_outcome resource_stream filename σ (OK t, σ)
  | load_fail e :
      CACHE σ !! filename = None →
      e ≠ ZeroDivisionError →
      load_outcome resource_stream filename σ
        (Raise e, opening (resource_name filename) σ)
  | load_miss text d :
      CACHE σ !! filename = None →
      resource_stream (resource_name filename) = Some text →
      _load_stream text = OK d →
      let t := fresh (dom (wordlists σ)) in
      load_outcome resource_stream filename σ
        (OK t,
         {| CACHE := <[filename := t]> (CACHE σ);
            wordlists := <[t := {| worddict := d;
                                   sorted_words_attr := None;
                                   max_freq_attr := None |}]> (wordlists σ);
            lists := lists σ;
            opened := resource_name filename :: opened σ |}).

(** What a client of the instance [t] may do with the lists it got from
    [words()]: call [words()] or [iteritems()] again, or update one of its
    lists in place.  A configuration is a state and the set of the lists the
    client got. *)
Inductive client_step (t : loc) : relation (state * gset loc) :=
  | client_words σ owned r σ' :
      Wordlist_words t σ = (OK r, σ') →
      client_step t (σ, owned) (σ', {[r]} ∪ owned)
  | client_iteritems σ owned items σ' :
      Wordlist_iteritems t σ = (items, σ') →
      client_step t (σ, owned) (σ', owned)
  | client_update σ owned r l :
      r ∈ owned →
      client_step t (σ, owned) (set_list r l σ, owned).

(** A small package: an English list, an empty list for [xx], nothing for
    the other languages. *)
Definition example_store (name : string) : option string :=
  if decide (name = "data/wordlists/multi-en.txt")
  then Some ("the,49" +:+ String newline ("cat,7" +:+ String newline ""))
  else if decide (name = "data/wordlists/leeds-internet-xx.txt")
  then Some ""
  else None.

(** The instance [t] has the dict [d] and a memoised [sorted_words] with the
    elements [ws], in a list that the client does not hold. *)
Definition memoised (t : loc) (d : gmap string Qc) (ws : list string)
    (c : state * gset loc) : Prop :=
  ∃ w m, wordlists c.1 !! t = Some w
         ∧ worddict w = d
         ∧ sorted_words_attr w = Some m
         ∧ lists c.1 !! m = Some ws
         ∧ m ∉ c.2.

(** Every character of the string satisfies [P]. *)
Fixpoint all_chars (P : ascii → bool) (s : string) : bool :=
  match s with
  | "" => true
  | String a s' => P a && all_chars P s'
  end.

Definition is_digit (a : ascii) : bool :=
  let n := N_of_ascii a in (48 <=? n)%N && (n <=? 57)%N.



(** ** The rest of the module *)

(** The text before the last [c] of a string and the text after it, if
    there is a [c]. *)
Fixpoint rsplit_last (c : ascii) (s : string) : option (string * string) :=
  match s with
  | "" => None
  | String a s' =>
      match rsplit_last c s' with
      | Some (h, t) => Some (String a h, t)
      | None => if decide (a = c) then Some ("", s') else None
      end
  end.

(** [s.rsplit(c, 1)]. *)
Definition rsplit1 (c : ascii) (s : string) : list string :=
  match rsplit_last c s with
  | Some (h, t) => [h; t]
  | None => [s]
  end.

(** The default of the parameter [scale], [1e9]. *)
Definition default_scale : Qc := Qc_of_Z 1000000000.

(** [multilingual_word_frequency(multiword, default_freq)]. *)
Definition multilingual_word_frequency
    (resource_stream : string → option string)
    (preprocess_text : string → string)
    (multiword : string) (default_freq : Qc) : M Qc :=
  '(word, lang) ← lift (unpack2 (rsplit1 "|" multiword));
  get_frequency resource_stream preprocess_text word lang default_freq
    default_scale.

(** [os.path.split(path)[-1]]: what follows the last slash. *)
Definition basename (path : string) : string :=
  match rsplit_last "/" path with
  | Some (_, tail) => tail
  | None => path
  end.

(** [self.save(filename)] on an instance: the text written, from the
    memoised [sorted_words]. *)
Definition Wordlist_save (self : loc) : M string :=
  r ← get_sorted_words self;
  l ← read_list r;
  w ← read_wordlist self;
  mret (String.concat "" (save_line (worddict w) <$> l)).

(** The process and the files around it, each named by its path as
    written: the text of those that can be opened for reading, and the names
    that cannot be opened for writing (no permission, no such directory). *)
Record world := {
  process : state;
  files : gmap string string;
  unwritable : gset string
}.

(** [Wordlist.load_new(path_and_filename)].  [CACHE[filename]] is set
    before [wordlist.save(filename)] is called; [save] opens the file for
    writing first, which raises [IOError] when the file cannot be opened and
    empties the file otherwise, and then writes the lines. *)
Definition load_new (preprocess_text : string → string) (exp10 : Qc → Qc)
    (path_and_filename : string) (Ω : world) : result loc * world :=
  let filename := basename path_and_filename in
  match files Ω !! path_and_filename with
  | None => (Raise IOError, Ω)
  | Some stream =>
      match
        (d ← lift (_load_new_stream preprocess_text exp10 stream);
         wordlist ← new_Wordlist d;
         _ ← set_CACHE filename wordlist;
         mret wordlist) (process Ω)
      with
      | (Raise e, σ) =>
          (Raise e, {| process := σ; files := files Ω;
                       unwritable := unwritable Ω |})
      | (OK wordlist, σ) =>
          if decide (filename ∈ unwritable Ω)
          then (Raise IOError, {| process := σ; files := files Ω;
                                  unwritable := unwritable Ω |})
          else
            match Wordlist_save wordlist σ with
            | (OK text, σ') =>
                (OK wordlist,
                 {| process := σ'; files := <[filename := text]> (files Ω);
                    unwritable := unwritable Ω |})
            | (Raise e, σ') =>
                (Raise e,
                 {| process := σ'; files := <[filename := ""]> (files Ω);
                    unwritable := unwritable Ω |})
            end
      end
  end.

(** [len(self)] on an instance. *)
Definition Wordlist_len (self : loc) : M nat :=
  w ← read_wordlist self;
  mret (len (worddict w)).

(** The factor of [merge_lists] for one entry, the list being an
    instance: [max_freq] is read through its [lazy_property]. *)
Definition merge_factor_on (sublist : loc) (weight : option Qc) : M Qc :=
  match weight with
  | Some w =>
      n ← Wordlist_len sublist;
      if decide (0 < n)%nat
      then m ← get_max_freq sublist; lift (float_div w m)
      else mret 1
  | None => mret 1
  end.

(** The loop of [merge_lists] on instances. *)
Fixpoint merge_lists_on_loop (weighted_lists : list (loc * string * option Qc))
    (totals : gmap string Qc) : M (gmap string Qc) :=
  match weighted_lists with
  | [] => mret totals
  | (sublist, suffix, weight) :: rest =>
      factor ← merge_factor_on sublist weight;
      items ← Wordlist_iteritems sublist;
      merge_lists_on_loop rest (merge_add suffix factor totals items)
  end.

(** [merge_lists(weighted_lists)] on instances: it returns a new
    instance. *)
Definition merge_lists_on (weighted_lists : list (loc * string * option Qc))
    : M loc :=
  totals ← merge_lists_on_loop weighted_lists ∅;
  new_Wordlist totals.

(** [multilingual_wordlist(langs, scale)]. *)
Definition multilingual_wordlist (resource_stream : string → option string)
    (langs : list string) (scale : Qc) : M loc :=
  weighted_lists ← mapM (λ lang, t ← get_wordlist resource_stream lang;
                                 mret (t, "|" +:+ lang, Some scale)) langs;
  merge_lists_on weighted_lists.

(** The memoised attributes of every instance are those of its dict. *)
Definition heap_ok (σ : state) : Prop :=
  ∀ t w, wordlists σ !! t = Some w →
    (∀ m, max_freq_attr w = Some m → max_freq (worddict w) = OK m)
    ∧ (∀ r, sorted_words_attr w = Some r →
            lists σ !! r = Some (sorted_words (worddict w))).

(** The dicts of the instances of a state. *)
Definition dicts (σ : state) : gmap loc (gmap string Qc) :=
  worddict <$> wordlists σ.

(** An entry of [weighted_lists] on instances stands for one on dicts. *)
Definition resolves (σ : state) (entry : loc * string * option Qc)
    (spec : weighted_list) : Prop :=
  dicts σ !! entry.1.1 = Some spec.1.1
  ∧ entry.1.2 = spec.1.2 ∧ entry.2 = spec.2.

(** ** Binary floating point

    Python's floats are IEEE 754 binary64 numbers, and their operations
    round to nearest.  The statements of [get_frequency] that compute with
    them, on such numbers, for a table given by its items. *)

(** [max(seq)] on floats. *)
Definition double_max (x : float) (xs : list float) : float :=
  foldl (λ a b, if PrimFloat.ltb a b then b else a) x xs.

(** [self.max_freq] for the table of the items. *)
Definition double_max_freq (items : list (string * float)) : result float :=
  match items.*2 with
  | [] => Raise (ValueError EmptyList)
  | x :: xs => OK (double_max x xs)
  end.

(** [self.worddict.get(word, default)] for the table of the items. *)
Fixpoint double_get (items : list (string * float)) (word : string)
    (default : float) : float :=
  match items with
  | [] => default
  | (w, f) :: rest => if decide (w = word) then f else double_get rest word default
  end.

(** [factor = scale / freqs.max_freq] and
    [return factor * freqs[lookup] + default_freq]. *)
Definition get_frequency_double (items : list (string * float))
    (lookup : string) (default_freq scale : float) : result float :=
  m ← double_max_freq items;
  if PrimFloat.eqb m 0 then Raise ZeroDivisionError
  else
    let factor := PrimFloat.div scale m in
    OK (PrimFloat.add (PrimFloat.mul factor (double_get items lookup 0))
          default_freq).

(** * Properties *)

(** ** Arithmetic on [Qc] *)

(** Facts on [Qc] are sent to [Q], where [lra] decides them. *)
Ltac to_Q :=
  repeat match goal with
         | H : @eq Qc _ _ |- _ => apply (f_equal this) in H
         | |- @eq Qc _ _ => apply Qc_is_canon
         | |- ¬ @eq Qc _ _ => intros ?
         end;
  unfold Qclt, Qcle, Qcminus, Qcdiv, Qcinv, Qcopp, Qcplus, Qcmult, Q2Qc,
    Qc_of_N, Qc_of_Z in *;
  cbn [this] in *; rewrite ?Qred_correct in *.

Ltac qc_lra := to_Q; lra.

Lemma Qcopp_lt_inv (x y : Qc) : - x < - y → y < x.
Proof. qc_lra. Qed.

(** ** The order of [sorted_words] *)

Section order.
Implicit Types (worddict : gmap string Qc).

Lemma str_lt_of_le s1 s2 : (s1 ≤ s2)%string → s1 ≠ s2 → str_lt s1 s2.
Proof.
  unfold String.le, str_lt, String.leb, String.ltb. intros Hle Hne.
  destruct (s1 ?= s2)%string eqn:Hc; try done.
  by apply String.compare_eq_iff in Hc.
Qed.

Global Instance key_le_trans : Transitive key_le.
Proof.
  intros [x1 s1] [x2 s2] [x3 s3]. unfold key_le. simpl.
  intros [H12|[-> H12]] [H23|[-> H23]]; eauto.
  - left. by trans x2.
  - right. split; [done|]. by trans s2.
Qed.

Global Instance key_le_total : Total key_le.
Proof.
  intros [x1 s1] [x2 s2]. unfold key_le. simpl.
  destruct (Qc_dec x1 x2) as [[?|?]| ->]; eauto.
  destruct (total String.le s1 s2); eauto.
Qed.

Lemma keys_elem_of worddict w : w ∈ keys worddict ↔ is_Some (worddict !! w).
Proof.
  unfold keys. rewrite list_elem_of_fmap. split.
  - intros [[w' f] [-> Hin]]. apply elem_of_map_to_list in Hin. by eexists.
  - intros [f Hf]. exists (w, f). split; [done|].
    by apply elem_of_map_to_list.
Qed.

Lemma keys_dom worddict : keys worddict ≡ₚ elements (dom worddict).
Proof.
  apply NoDup_Permutation.
  - apply NoDup_fst_map_to_list.
  - apply NoDup_elements.
  - intros w. by rewrite keys_elem_of, elem_of_elements, elem_of_dom.
Qed.

Lemma sorted_words_keys worddict : sorted_words worddict ≡ₚ keys worddict.
Proof. apply merge_sort_Permutation. Qed.

Lemma sorted_words_NoDup worddict : NoDup (sorted_words worddict).
Proof. rewrite sorted_words_keys. apply NoDup_fst_map_to_list. Qed.

Lemma sorted_words_elem_of worddict w :
  w ∈ sorted_words worddict ↔ is_Some (worddict !! w).
Proof. by rewrite sorted_words_keys, keys_elem_of. Qed.

Lemma sort_key_ranks worddict w1 w2 :
  key_le (sort_key worddict w1) (sort_key worddict w2) → w1 ≠ w2 →
  ranks_before worddict w1 w2.
Proof.
  unfold key_le, sort_key, ranks_before, getitem, get. simpl.
  intros [Hlt|[Heq Hle]] Hne.
  - left. by apply Qcopp_lt_inv.
  - right. split; [by apply (inj Qcopp)|by apply str_lt_of_le].
Qed.

Lemma StronglySorted_strengthen {A} (R R' : relation A) l :
  (∀ x y, R x y → x ≠ y → R' x y) →
  NoDup l → StronglySorted R l → StronglySorted R' l.
Proof.
  intros HR. induction 1 as [|x l Hx Hl IH]; intros Hs; [constructor|].
  apply StronglySorted_inv in Hs as [Hs Hall]. constructor; [by auto|].
  rewrite Forall_forall in Hall |- *. intros y Hy.
  apply HR; [by apply Hall|]. intros ->. done.
Qed.

Lemma iteritems_lookup worddict :
  Forall (λ item, worddict !! item.1 = Some item.2) (iteritems worddict).
Proof.
  unfold iteritems. rewrite Forall_fmap. apply Forall_forall.
  intros w [f Hf]%sorted_words_elem_of. simpl. by rewrite Hf.
Qed.

Lemma sorted_words_ranked worddict :
  StronglySorted (ranks_before worddict) (sorted_words worddict).
Proof.
  eapply StronglySorted_strengthen;
    [apply sort_key_ranks|apply sorted_words_NoDup|].
  unfold sorted_words, sorted.
  apply @StronglySorted_merge_sort.
  - intros x y z. apply key_le_trans.
  - intros x y. apply key_le_total.
Qed.
End order.

(** C4. The words of a table are its keys, each once, listed by decreasing
    frequency, and words of the same frequency in increasing lexicographic
    order; [iteritems] lists the same words in the same order, each with its
    frequency in the table.  (The table need not be non-empty.) *)
Theorem words_sorted_permutation (worddict : gmap string Qc) :
  words worddict ≡ₚ elements (dom worddict)
  ∧ StronglySorted (ranks_before worddict) (words worddict)
  ∧ (iteritems worddict).*1 = words worddict
  ∧ Forall (λ item, worddict !! item.1 = Some item.2) (iteritems worddict).
Proof.
  unfold words. split_and!.
  - by rewrite sorted_words_keys, keys_dom.
  - apply sorted_words_ranked.
  - unfold iteritems. rewrite <-list_fmap_compose. apply list_fmap_id.
  - apply iteritems_lookup.
Qed.

(** ** Duplicate words in the two loaders *)

Section duplicates.
Variable preprocess_text : string → string.
Variable exp10 : Qc → Qc.

Lemma entries_for_cons key e (entries : list (string * Qc)) :
  entries_for key (e :: entries)
  = if decide (e.1 = key) then e.2 :: entries_for key entries
    else entries_for key entries.
Proof.
  unfold entries_for. rewrite filter_cons. by case_decide.
Qed.

Lemma _load_stream_loop_spec lines d0 d :
  _load_stream_loop lines d0 = OK d →
  ∃ entries,
    Forall2 (λ line e, parse_line comma line = OK e) lines entries
    ∧ ∀ word, d !! word
              = match last_entry word entries with
                | Some freq => Some freq
                | None => d0 !! word
                end.
Proof.
  revert d0. induction lines as [|line lines IH]; intros d0 Hload.
  - simplify_eq/=. exists []. split; [constructor|done].
  - cbn [_load_stream_loop] in Hload.
    destruct (parse_line comma line) as [[word freq]|] eqn:Hline;
      [|done].
    cbn in Hload. apply IH in Hload as (entries & Hall & Hd).
    exists ((word, freq) :: entries). split; [by constructor|].
    intros w. rewrite Hd. unfold last_entry.
    rewrite entries_for_cons. simpl. case_decide as Hw.
    + subst w. rewrite last_cons.
      destruct (last (entries_for word entries)); [done|].
      by rewrite lookup_insert_eq.
    + destruct (last (entries_for w entries)); [done|].
      by rewrite lookup_insert_ne.
Qed.

Lemma accumulated_app o xs ys :
  accumulated o (xs ++ ys) = accumulated (accumulated o xs) ys.
Proof.
  destruct xs as [|x xs]; [done|]. destruct ys as [|y ys].
  - by rewrite app_nil_r.
  - simpl. by rewrite foldl_app.
Qed.

Lemma accumulated_None xs : accumulated None xs = summed xs.
Proof. by destruct xs. Qed.

Lemma add_to_lookup key x d k :
  add_to key x d !! k
  = accumulated (d !! k) (if decide (key = k) then [x] else []).
Proof.
  unfold add_to. case_decide as Hk.
  - subst k. by rewrite lookup_insert_eq.
  - by rewrite lookup_insert_ne.
Qed.

Lemma _load_new_stream_loop_spec lines mo d0 d :
  _load_new_stream_loop preprocess_text exp10 lines mo d0 = OK d →
  ∃ m entries,
    match mo with
    | Some m' => m = m'
    | None => ∀ line, head lines = Some line → detect_mode line = OK m
    end
    ∧ Forall2 (λ line e, parse_new_line exp10 m line = OK e) lines entries
    ∧ ∀ key, d !! key
             = accumulated (d0 !! key)
                 (entries_for key
                    ((λ e, (normalize preprocess_text e.1, e.2))
                       <$> entries)).
Proof.
  revert mo d0. induction lines as [|line lines IH]; intros mo d0 Hload.
  - simplify_eq/=. exists (from_option id Linear mo), [].
    split; [by destruct mo|]. split; [constructor|done].
  - cbn [_load_new_stream_loop] in Hload.
    set (dm := match mo with None => detect_mode line | Some m => OK m end)
      in Hload.
    destruct dm as [m|] eqn:Hm; [|done]. cbn in Hload.
    destruct (parse_new_line exp10 m line) as [[word freq]|] eqn:Hline;
      [|done].
    cbn in Hload. apply IH in Hload as (m' & entries & -> & Hall & Hd).
    exists m, ((word, freq) :: entries). split_and!.
    + subst dm. destruct mo; simplify_eq/=; [done|]. by intros ? [= <-].
    + by constructor.
    + intros key. rewrite Hd, fmap_cons, entries_for_cons. cbn [fst snd].
      rewrite add_to_lookup. case_decide; [|done].
      by rewrite <-accumulated_app.
Qed.
End duplicates.

(** C3. The standard loader keeps, for each word, the frequency of the last
    line that has the word.  The loader of new files keys each line by
    [preprocess_text(word).lower()] and gives each key the sum, from zero,
    of the frequencies of the lines with that key. *)
Theorem duplicate_keys (preprocess_text : string → string) (exp10 : Qc → Qc) :
  (∀ stream d,
     _load_stream stream = OK d →
     ∃ entries,
       Forall2 (λ line e, parse_line comma line = OK e)
               (readlines stream) entries
       ∧ ∀ word, d !! word = last_entry word entries)
  ∧ (∀ stream d,
       _load_new_stream preprocess_text exp10 stream = OK d →
       ∃ m entries,
         (∀ line, head (readlines stream) = Some line →
                  detect_mode line = OK m)
         ∧ Forall2 (λ line e, parse_new_line exp10 m line = OK e)
                   (readlines stream) entries
         ∧ ∀ key, d !! key
                  = summed (entries_for key
                              ((λ e, (lower (preprocess_text e.1), e.2))
                                 <$> entries))).
Proof.
  split.
  - intros stream d Hload.
    apply _load_stream_loop_spec in Hload as (entries & Hall & Hd).
    exists entries. split; [done|]. intros word. rewrite Hd.
    by destruct (last_entry word entries).
  - intros stream d Hload.
    apply _load_new_stream_loop_spec in Hload
      as (m & entries & Hm & Hall & Hd).
    exists m, entries. split_and!; [done..|]. intros key. rewrite Hd.
    by rewrite lookup_empty, accumulated_None.
Qed.

(** ** Merging *)

Section merging.
Implicit Types (totals sublist : gmap string Qc) (suffix : string).

Lemma merge_add_lookup suffix factor totals items key :
  merge_add suffix factor totals items !! key
  = accumulated (totals !! key)
      (entries_for key
         ((λ '(word, freq), (word +:+ suffix, freq * factor)) <$> items)).
Proof.
  unfold merge_add. revert totals.
  induction items as [|[word freq] items IH]; intros totals.
  - done.
  - cbn [foldl]. rewrite IH.
    rewrite fmap_cons, entries_for_cons, add_to_lookup. cbn [fst snd].
    case_decide; [|done]. by rewrite <-accumulated_app.
Qed.

Lemma contributions_cons key spec factor specs :
  contributions key ((spec, factor) :: specs)
  = contribution key spec factor ++ contributions key specs.
Proof. done. Qed.

Lemma merge_lists_loop_spec (specs : list weighted_list) factors totals :
  Forall2 (λ spec factor, merge_factor spec.1.1 spec.2 = OK factor)
          specs factors →
  ∃ T, merge_lists_loop specs totals = OK T
       ∧ ∀ key, T !! key
                = accumulated (totals !! key)
                    (contributions key (zip specs factors)).
Proof.
  intros Hall. revert totals.
  induction Hall as [|[[sublist suffix] weight] factor specs factors Hf _ IH];
    intros totals.
  - by exists totals.
  - cbn [merge_lists_loop]. cbn in Hf. rewrite Hf. cbn.
    destruct (IH (merge_add suffix factor totals (iteritems sublist)))
      as (T & -> & HT).
    exists T. split; [done|]. intros key.
    rewrite HT, merge_add_lookup. cbn [zip_with].
    by rewrite accumulated_app.
Qed.

Lemma merge_lists_loop_factors (specs : list weighted_list) totals T :
  merge_lists_loop specs totals = OK T →
  ∃ factors,
    Forall2 (λ spec factor, merge_factor spec.1.1 spec.2 = OK factor)
            specs factors.
Proof.
  revert totals.
  induction specs as [|[[sublist suffix] weight] specs IH]; intros totals.
  - exists []. constructor.
  - cbn [merge_lists_loop].
    destruct (merge_factor sublist weight) as [factor|] eqn:Hf; [|done].
    cbn. intros [factors Hall]%IH. exists (factor :: factors).
    by constructor.
Qed.

Lemma max_freq_nonempty sublist :
  sublist ≠ ∅ → ∃ m, max_freq sublist = OK m.
Proof.
  intros Hne. unfold max_freq, len, itervalues.
  case_decide as Hsize; [by apply map_size_empty_iff in Hsize|].
  destruct (map_to_list sublist) as [|[w v] l] eqn:Hl.
  - by apply map_to_list_empty_iff in Hl.
  - by eexists.
Qed.
End merging.

(** C2. The factor of a merge spec is [1] when there is no target maximum
    or the source is empty, and the target divided by the maximum of the
    source otherwise.  When every factor can be computed, [merge_lists]
    returns a table in which each key holds the sum of the scaled
    frequencies of the entries that, suffixed, are that key, and only the
    keys with such an entry are present.  The two tables of the example
    merge to the stated table. *)
Theorem merge_lists_spec :
  (∀ sublist, merge_factor sublist None = OK 1)
  ∧ (∀ weight, merge_factor ∅ (Some weight) = OK 1)
  ∧ (∀ sublist weight m,
       sublist ≠ ∅ → max_freq sublist = OK m → m ≠ 0 →
       merge_factor sublist (Some weight) = OK (weight / m))
  ∧ (∀ (specs : list weighted_list) factors,
       Forall2 (λ spec factor, merge_factor spec.1.1 spec.2 = OK factor)
               specs factors →
       ∃ T, merge_lists specs = OK T
            ∧ ∀ key, T !! key = summed (contributions key (zip specs factors)))
  ∧ merge_lists
      [ ({["x" := Qc_of_Z 5]}, "_a", Some (Qc_of_Z 100));
        ({["y" := Qc_of_Z 10]}, "_b", Some (Qc_of_Z 50)) ]
    = OK {["x_a" := Qc_of_Z 100; "y_b" := Qc_of_Z 50]}.
Proof.
  split_and!.
  - done.
  - done.
  - intros sublist weight m Hne Hm Hm0. unfold merge_factor, len.
    case_decide as Hsize.
    + rewrite Hm. cbn. unfold float_div. by case_decide.
    + destruct Hne. apply map_size_empty_iff. lia.
  - intros specs factors Hall.
    destruct (merge_lists_loop_spec specs factors ∅ Hall) as (T & HT & Hkey).
    exists T. split; [done|]. intros key.
    by rewrite Hkey, lookup_empty, accumulated_None.
  - apply (bool_decide_unpack _). by vm_compute.
Qed.

(** ** Frequencies are not negative *)

Section nonnegative.
Variable preprocess_text : string → string.
Variable exp10 : Qc → Qc.





Lemma py_max_elem_of x xs : py_max x xs ∈ x :: xs.
Proof.
  unfold py_max. revert x. induction xs as [|y xs IH]; intros x.
  - left.
  - cbn. unfold Qc_max at 2. case_decide.
    + right. apply IH.
    + specialize (IH x). apply elem_of_cons in IH as [->|?].
      * left.
      * by do 2 right.
Qed.

Lemma max_freq_attained d m :
  max_freq d = OK m → ∃ word, d !! word = Some m.
Proof.
  unfold max_freq, itervalues. case_decide; [done|].
  destruct (map_to_list d) as [|[w v] l] eqn:Hl; [done|].
  cbn. intros [= <-].
  assert (py_max v l.*2 ∈ (map_to_list d).*2) as Hin.
  { rewrite Hl. apply py_max_elem_of. }
  apply list_elem_of_fmap in Hin as [[w' v'] [-> Hin]].
  exists w'. by apply elem_of_map_to_list.
Qed.




End nonnegative.

(** ** The cache *)

Section cache.
Variable resource_stream : string → option string.

Lemma parse_line_no_zero_division sep line :
  parse_line sep line ≠ Raise ZeroDivisionError.
Proof.
  unfold parse_line.
  destruct (split sep (rstrip line)) as [|a [|b [|c fs]]]; try done.
  cbn. unfold py_float.
  destruct (take_sign _) as [neg body].
  destruct (split_exponent body) as [m e].
  by destruct (mantissa m), (exponent e).
Qed.

Lemma _load_stream_loop_no_zero_division lines d :
  _load_stream_loop lines d ≠ Raise ZeroDivisionError.
Proof.
  revert d. induction lines as [|line lines IH]; intros d; [done|].
  cbn [_load_stream_loop].
  pose proof (parse_line_no_zero_division comma line).
  destruct (parse_line comma line) as [[word freq]|e]; cbn; [by apply IH|].
  congruence.
Qed.

Lemma load_cases filename σ : load_outcome resource_stream filename σ (load resource_stream filename σ).
Proof.
  unfold load.
  destruct (CACHE σ !! filename) as [t|] eqn:Hcache; [by constructor|].
  unfold mbind, M_bind, open_resource.
  destruct (resource_stream (resource_name filename)) as [text|] eqn:Htext.
  - unfold lift.
    destruct (_load_stream text) as [d|e] eqn:Hd.
    + by apply (load_miss resource_stream filename σ text d).
    + apply load_fail; [done|]. intros ->.
      by apply _load_stream_loop_no_zero_division in Hd.
  - by apply load_fail.
Qed.

Lemma resource_name_inj f1 f2 :
  resource_name f1 = resource_name f2 → f1 = f2.
Proof. unfold resource_name. apply (inj _). Qed.

Lemma load_no_zero_division filename σ σ' :
  load resource_stream filename σ ≠ (Raise ZeroDivisionError, σ').
Proof.
  destruct (load_cases filename σ); intros ?; simplify_eq.
Qed.

Lemma load_cached filename σ t :
  CACHE σ !! filename = Some t →
  load resource_stream filename σ = (OK t, σ).
Proof. intros Hc. unfold load. by rewrite Hc. Qed.

Lemma load_OK_cached filename σ t σ' :
  load resource_stream filename σ = (OK t, σ') →
  CACHE σ' !! filename = Some t.
Proof.
  intros Hload. destruct (load_cases filename σ); simplify_eq/=; [done|].
  by rewrite lookup_insert_eq.
Qed.

(** A call of [load] leaves what is cached as it is, and opens no
    resource of a cached file. *)
Lemma load_keeps filename' filename σ t :
  CACHE σ !! filename = Some t →
  CACHE (load resource_stream filename' σ).2 !! filename = Some t
  ∧ reads_of (resource_name filename)
      (opened (load resource_stream filename' σ).2)
    = reads_of (resource_name filename) (opened σ).
Proof.
  intros Hc. unfold reads_of.
  destruct (load_cases filename' σ) as [| |text d Hnone]; cbn.
  - done.
  - split; [done|]. case_decide as Heq; [|done].
    apply resource_name_inj in Heq. congruence.
  - split.
    + rewrite lookup_insert_ne; [done|]. congruence.
    + case_decide as Heq; [|done].
      apply resource_name_inj in Heq. congruence.
Qed.

Lemma loads_keeps later filename σ t :
  CACHE σ !! filename = Some t →
  CACHE (loads resource_stream later σ) !! filename = Some t
  ∧ reads_of (resource_name filename)
      (opened (loads resource_stream later σ))
    = reads_of (resource_name filename) (opened σ).
Proof.
  revert σ. induction later as [|filename' later IH]; intros σ Hc; [done|].
  destruct (load_keeps filename' filename σ t Hc) as [Hc' Hreads].
  destruct (IH _ Hc') as [Hc'' Hreads'']. unfold loads in *. cbn [foldl].
  split; [done|]. by rewrite Hreads''.
Qed.
End cache.

(** C6. Once [load(filename)] has returned an instance, every later call of
    [load(filename)], whatever calls of [load] come in between, returns the
    same instance and leaves the state as it is: the resource of the file is
    not opened again, and [CACHE] still holds the instance. *)
Theorem load_once (resource_stream : string → option string)
    (filename : string) (σ σ1 : state) (t : loc) (later : list string) :
  load resource_stream filename σ = (OK t, σ1) →
  let σ2 := loads resource_stream later σ1 in
  load resource_stream filename σ2 = (OK t, σ2)
  ∧ CACHE σ2 !! filename = Some t
  ∧ reads_of (resource_name filename) (opened σ2)
    = reads_of (resource_name filename) (opened σ1).
Proof.
  intros Hload%load_OK_cached σ2.
  destruct (loads_keeps resource_stream later filename σ1 t Hload) as [Hc Hr].
  split_and!; [|done..]. by apply load_cached.
Qed.

(** ** Looking a word up *)

Section lookup.
Variable resource_stream : string → option string.
Variable preprocess_text : string → string.

Lemma initial_state_ok : state_ok initial_state.
Proof.
  split; unfold initial_state; cbn [CACHE wordlists]; intros *;
    by rewrite lookup_empty.
Qed.

Lemma load_state_ok filename σ :
  state_ok σ → state_ok (load resource_stream filename σ).2.
Proof.
  intros [Hcache Hmemo].
  destruct (load_cases resource_stream filename σ)
    as [| |text d Hnone Htext Hd t]; cbn; [done..|].
  split; cbn.
  - intros f t' Hf. destruct (decide (f = filename)) as [->|Hne].
    + rewrite lookup_insert_eq in Hf. simplify_eq.
      by rewrite lookup_insert_eq.
    + rewrite lookup_insert_ne in Hf by done.
      apply Hcache in Hf as [w Hw].
      destruct (decide (t = t')) as [<-|Hne'].
      * by rewrite lookup_insert_eq.
      * by rewrite lookup_insert_ne.
  - intros t' w m Hw Hm. destruct (decide (t = t')) as [<-|Hne'].
    + rewrite lookup_insert_eq in Hw. by simplify_eq.
    + rewrite lookup_insert_ne in Hw by done. by eapply Hmemo.
Qed.

(** What [self.max_freq] returns, and what it leaves behind. *)
Lemma get_max_freq_OK freqs σ m σ' :
  get_max_freq freqs σ = (OK m, σ') →
  ∃ w w', wordlists σ !! freqs = Some w
          ∧ wordlists σ' !! freqs = Some w'
          ∧ worddict w' = worddict w
          ∧ (max_freq_attr w = Some m ∨ max_freq (worddict w) = OK m).
Proof.
  unfold get_max_freq, mbind, M_bind, read_wordlist.
  destruct (wordlists σ !! freqs) as [w|] eqn:Hw; [|done].
  destruct (max_freq_attr w) as [m'|] eqn:Hattr.
  - intros [= <- <-]. exists w, w. by eauto.
  - unfold lift. destruct (max_freq (worddict w)) as [m'|] eqn:Hmax; [|done].
    cbn. intros [= <- <-]. eexists w, _. cbn.
    rewrite lookup_insert_eq. by eauto.
Qed.

(** A call that returns went through every step of the body. *)
Lemma get_frequency_OK word lang default_freq scale σ v σ' :
  get_frequency resource_stream preprocess_text word lang default_freq scale σ
  = (OK v, σ') →
  ∃ freqs σ1 m w,
    get_wordlist resource_stream lang σ = (OK freqs, σ1)
    ∧ get_max_freq freqs σ1 = (OK m, σ')
    ∧ m ≠ 0
    ∧ contains_char space word = false
    ∧ wordlists σ' !! freqs = Some w
    ∧ v = scale / m * getitem (worddict w) (normalize preprocess_text word)
          + default_freq.
Proof.
  unfold get_frequency.
  destruct (get_wordlist resource_stream lang σ) as [[freqs|e] σ1] eqn:Hget.
  - unfold mbind, M_bind.
    destruct (get_max_freq freqs σ1) as [[m|e] σ2] eqn:Hmax; [|done].
    unfold lift, float_div. case_decide as Hm0; [done|].
    destruct (contains_char space word) eqn:Hspace; [done|].
    unfold Wordlist_getitem, mbind, M_bind, read_wordlist.
    destruct (wordlists σ2 !! freqs) as [w|] eqn:Hw; [|done].
    cbn. intros [= <- <-]. by exists freqs, σ1, m, w.
  - destruct e; try done. by apply load_no_zero_division in Hget.
Qed.

(** A word with a space in it: the call raises. *)
Lemma get_frequency_space word lang default_freq scale σ :
  contains_char space word = true →
  ∃ e σ',
    get_frequency resource_stream preprocess_text word lang
      default_freq scale σ = (Raise e, σ')
    ∧ ∀ freqs σ1 m σ2,
        get_wordlist resource_stream lang σ = (OK freqs, σ1) →
        get_max_freq freqs σ1 = (OK m, σ2) →
        m ≠ 0 →
        e = ValueError NotSingleWord ∧ σ' = σ2.
Proof.
  intros Hspace. unfold get_frequency.
  destruct (get_wordlist resource_stream lang σ) as [[freqs|e] σ1] eqn:Hget.
  - unfold mbind, M_bind.
    destruct (get_max_freq freqs σ1) as [[m|e] σ2] eqn:Hmax.
    + unfold lift, float_div. case_decide as Hm0.
      * eexists _, _. split; [done|].
        intros freqs' σ1' m' σ2' [= <- <-] Hmax'.
        rewrite Hmax in Hmax'. by simplify_eq.
      * rewrite Hspace. eexists _, _. split; [done|].
        intros freqs' σ1' m' σ2' [= <- <-] Hmax'.
        rewrite Hmax in Hmax'. by simplify_eq.
    + eexists _, _. split; [done|].
      intros freqs' σ1' m' σ2' [= <- <-] Hmax'.
      rewrite Hmax in Hmax'. by simplify_eq.
  - destruct e; try by (eexists _, _; split; [done|]; intros; simplify_eq).
    by apply load_no_zero_division in Hget.
Qed.

(** The handler of [get_frequency] is never entered: what [get_wordlist]
    raises, the call raises. *)
Lemma get_frequency_load_raises word lang default_freq scale σ e σ' :
  get_wordlist resource_stream lang σ = (Raise e, σ') →
  get_frequency resource_stream preprocess_text word lang default_freq scale σ
  = (Raise e, σ').
Proof.
  intros Hget. unfold get_frequency. rewrite Hget.
  destruct e; try done. by apply load_no_zero_division in Hget.
Qed.
End lookup.

(** C1 (the code behaves otherwise).  With no data for the language the
    call raises [IOError], and with an empty list it raises the
    [ValueError] of [max_freq]; in neither case is the default returned. *)
Theorem default_not_returned (word : string) (default_freq scale : Qc) :
  (get_frequency example_store id word "fr" default_freq scale
     initial_state).1 = Raise IOError
  ∧ (get_frequency example_store id word "xx" default_freq scale
       initial_state).1 = Raise (ValueError EmptyList).
Proof. split; reflexivity. Qed.

(** C5, as the code has it.  A call that returns has loaded the list of
    the language, whose maximum [m] is not zero, and returns
    [scale / m * get(preprocess_text(word).lower(), 0) + default_freq]; for
    the most frequent word that is [scale / m * m + default_freq]. *)
Theorem get_frequency_value (resource_stream : string → option string)
    (preprocess_text : string → string) (word lang : string)
    (default_freq scale : Qc) (σ σ' : state) (v : Qc) :
  state_ok σ →
  get_frequency resource_stream preprocess_text word lang default_freq scale σ
  = (OK v, σ') →
  ∃ freqs w m,
    (get_wordlist resource_stream lang σ).1 = OK freqs
    ∧ wordlists σ' !! freqs = Some w
    ∧ max_freq (worddict w) = OK m
    ∧ m ≠ 0
    ∧ v = scale / m * get (worddict w) (lower (preprocess_text word)) 0
          + default_freq
    ∧ (get (worddict w) (lower (preprocess_text word)) 0 = m →
       v = scale / m * m + default_freq).
Proof.
  intros Hok (freqs & σ1 & m & w & Hget & Hmax & Hm0 & _ & Hw & ->)
    %get_frequency_OK.
  exists freqs, w, m. rewrite Hget. split_and!; try done.
  - apply get_max_freq_OK in Hmax as (w1 & w' & Hw1 & Hw' & Hdict & Hm).
    simplify_eq. rewrite Hdict. destruct Hm as [Hattr|Hm]; [|done].
    assert (state_ok σ1) as [_ Hmemo].
    { unfold get_wordlist in Hget.
      pose proof (load_state_ok resource_stream (wordlist_filename lang) σ Hok)
        as Hok1. by rewrite Hget in Hok1. }
    by eapply Hmemo.
  - unfold getitem, normalize. by intros ->.
Qed.

(** C8, as the code has it.  Once the list of the language is loaded and
    its maximum is not zero, a word with a space in it makes the call raise
    the [ValueError] for a word that is not single; the state is the one
    [max_freq] has left. *)
Theorem get_frequency_rejects_space
    (resource_stream : string → option string)
    (preprocess_text : string → string) (word lang : string)
    (default_freq scale : Qc) (σ σ1 σ2 : state) (freqs : loc) (m : Qc) :
  contains_char space word = true →
  get_wordlist resource_stream lang σ = (OK freqs, σ1) →
  get_max_freq freqs σ1 = (OK m, σ2) →
  m ≠ 0 →
  get_frequency resource_stream preprocess_text word lang default_freq scale σ
  = (Raise (ValueError NotSingleWord), σ2).
Proof.
  intros Hspace Hget Hmax Hm0.
  destruct (get_frequency_space resource_stream preprocess_text word lang
              default_freq scale σ Hspace) as (e & σ' & Hcall & Hwhen).
  destruct (Hwhen _ _ _ _ Hget Hmax Hm0) as [-> ->]. exact Hcall.
Qed.

(** ** The lists handed out by [words()] *)

Section copies.
Implicit Types (σ : state) (owned : gset loc) (t r : loc).

Lemma fresh_list σ : lists σ !! fresh (dom (lists σ)) = None.
Proof. apply not_elem_of_dom, is_fresh. Qed.

Lemma memoised_get_sorted_words t d ws σ owned :
  memoised t d ws (σ, owned) →
  ∃ m, get_sorted_words t σ = (OK m, σ) ∧ lists σ !! m = Some ws.
Proof.
  intros (w & m & Hw & _ & Hattr & Hm & _). cbn in *. exists m.
  unfold get_sorted_words, mbind, M_bind, read_wordlist.
  by rewrite Hw, Hattr.
Qed.

Lemma memoised_words t d ws σ owned :
  memoised t d ws (σ, owned) →
  ∃ r σ', Wordlist_words t σ = (OK r, σ')
          ∧ lists σ !! r = None
          ∧ lists σ' !! r = Some ws
          ∧ memoised t d ws (σ', {[r]} ∪ owned).
Proof.
  intros Hmemo.
  destruct (memoised_get_sorted_words _ _ _ _ _ Hmemo) as (m & Hget & Hm).
  destruct Hmemo as (w & m' & Hw & Hd & Hattr & Hm' & Hown). cbn in *.
  unfold Wordlist_words, mbind, M_bind. rewrite Hget.
  unfold read_list. rewrite Hm. unfold new_list.
  eexists _, _. split; [done|]. cbn.
  pose proof (fresh_list σ) as Hfresh.
  split_and!; [done|by rewrite lookup_insert_eq|].
  exists w, m'. cbn. split_and!; [done..| |].
  - rewrite lookup_insert_ne; [done|]. congruence.
  - apply not_elem_of_union. split; [|done].
    apply not_elem_of_singleton. congruence.
Qed.

Lemma memoised_iteritems t d ws σ owned :
  memoised t d ws (σ, owned) →
  Wordlist_iteritems t σ
  = (OK ((λ word, (word, getitem d word)) <$> ws), σ).
Proof.
  intros Hmemo.
  destruct (memoised_get_sorted_words _ _ _ _ _ Hmemo) as (m & Hget & Hm).
  destruct Hmemo as (w & m' & Hw & Hd & _). cbn in *.
  unfold Wordlist_iteritems, mbind, M_bind. rewrite Hget.
  unfold read_list. rewrite Hm. unfold read_wordlist. rewrite Hw.
  by subst d.
Qed.

Lemma memoised_update t d ws σ owned r l :
  memoised t d ws (σ, owned) → r ∈ owned →
  memoised t d ws (set_list r l σ, owned).
Proof.
  intros (w & m & Hw & Hd & Hattr & Hm & Hown) Hr. cbn in *.
  exists w, m. cbn. split_and!; [done..| |done].
  rewrite lookup_insert_ne; [done|]. by intros ->.
Qed.

Lemma memoised_step t d ws c c' :
  client_step t c c' → memoised t d ws c → memoised t d ws c'.
Proof.
  destruct 1 as [σ owned r σ' Hwords|σ owned items σ' Hitems|σ owned r l Hr];
    intros Hmemo.
  - destruct (memoised_words _ _ _ _ _ Hmemo) as (r' & σ'' & Hw' & _ & _ & ?).
    rewrite Hwords in Hw'. by simplify_eq.
  - rewrite (memoised_iteritems _ _ _ _ _ Hmemo) in Hitems. by simplify_eq.
  - by apply memoised_update.
Qed.

Lemma memoised_rtc t d ws c c' :
  rtc (client_step t) c c' → memoised t d ws c → memoised t d ws c'.
Proof. induction 1; eauto using memoised_step. Qed.

(** The first call of [words()], on any instance. *)
Lemma first_words t w σ :
  wordlists σ !! t = Some w →
  (∀ m, sorted_words_attr w = Some m → is_Some (lists σ !! m)) →
  ∃ r σ' ws,
    Wordlist_words t σ = (OK r, σ')
    ∧ lists σ !! r = None
    ∧ lists σ' !! r = Some ws
    ∧ (sorted_words_attr w = None → ws = sorted_words (worddict w))
    ∧ memoised t (worddict w) ws (σ', {[r]}).
Proof.
  intros Hw Hvalid.
  unfold Wordlist_words, get_sorted_words, mbind, M_bind, read_wordlist.
  rewrite Hw. destruct (sorted_words_attr w) as [m|] eqn:Hattr.
  - destruct (Hvalid m eq_refl) as [ws Hm].
    unfold mret, M_ret, read_list. rewrite Hm. unfold new_list.
    pose proof (fresh_list σ) as Hfresh.
    eexists _, _, ws. split; [done|]. cbn.
    split_and!; [done|by rewrite lookup_insert_eq|done|].
    exists w, m. cbn. split_and!; [done..| |].
    + rewrite lookup_insert_ne; [done|]. congruence.
    + apply not_elem_of_singleton. congruence.
  - unfold new_list, set_wordlist, mret, M_ret, read_list. cbn.
    rewrite lookup_insert_eq.
    set (m := fresh (dom (lists σ))).
    set (ls := <[m := sorted_words (worddict w)]> (lists σ)).
    assert (ls !! fresh (dom ls) = None) as Hfresh
      by apply not_elem_of_dom, is_fresh.
    assert (fresh (dom ls) ≠ m) as Hne.
    { intros Heq. rewrite Heq in Hfresh. subst ls.
      by rewrite lookup_insert_eq in Hfresh. }
    eexists _, _, _. split; [done|]. cbn.
    split_and!.
    + subst ls. by rewrite lookup_insert_ne in Hfresh.
    + by rewrite lookup_insert_eq.
    + done.
    + eexists _, m. cbn. rewrite lookup_insert_eq.
      split_and!; [done..| |].
      * rewrite lookup_insert_ne by done. subst ls.
        by rewrite lookup_insert_eq.
      * by apply not_elem_of_singleton.
Qed.
End copies.

(** C10. A call of [words()] returns a list that did not exist before, with
    the elements of the memoised [sorted_words].  Whatever the client then
    does with the lists it got (updating them in place, calling [words()]
    and [iteritems()] again), the dict of the instance is the same, a call
    of [words()] again returns a new list with the same elements, and
    [iteritems()] lists these elements with their frequencies. *)
Theorem words_returns_copy (t : loc) (w : Wordlist) (σ : state) :
  wordlists σ !! t = Some w →
  (∀ m, sorted_words_attr w = Some m → is_Some (lists σ !! m)) →
  ∃ r1 σ1 ws,
    Wordlist_words t σ = (OK r1, σ1)
    ∧ lists σ !! r1 = None
    ∧ lists σ1 !! r1 = Some ws
    ∧ (sorted_words_attr w = None → ws = sorted_words (worddict w))
    ∧ ∀ σ' owned,
        rtc (client_step t) (σ1, {[r1]}) (σ', owned) →
        worddict <$> wordlists σ' !! t = Some (worddict w)
        ∧ (∃ r' σ'', Wordlist_words t σ' = (OK r', σ'')
                     ∧ lists σ' !! r' = None
                     ∧ lists σ'' !! r' = Some ws)
        ∧ (Wordlist_iteritems t σ').1
          = OK ((λ word, (word, getitem (worddict w) word)) <$> ws).
Proof.
  intros Hw Hvalid.
  destruct (first_words t w σ Hw Hvalid)
    as (r1 & σ1 & ws & Hwords & Hnew & Hr1 & Hws & Hmemo).
  exists r1, σ1, ws. split_and!; [done..|].
  intros σ' owned Hsteps.
  pose proof (memoised_rtc _ _ _ _ _ Hsteps Hmemo) as Hmemo'.
  split_and!.
  - destruct Hmemo' as (w' & m & Hw' & Hd & _). cbn in *.
    by rewrite Hw', <-Hd.
  - destruct (memoised_words _ _ _ _ _ Hmemo') as (r' & σ'' & ? & ? & ? & _).
    by eauto.
  - by rewrite (memoised_iteritems _ _ _ _ _ Hmemo').
Qed.

(** ** Text: lines, fields and numbers *)

Section text.
Implicit Types (s t : string) (a c : ascii).

Lemma app_String a s t : String a s +:+ t = String a (s +:+ t).
Proof. done. Qed.

Lemma app_empty_l t : "" +:+ t = t.
Proof. done. Qed.


Lemma app_empty_r s : s +:+ "" = s.
Proof. induction s as [|a s IH]; [done|]. by rewrite app_String, IH. Qed.










Lemma split_none c s : contains_char c s = false → split c s = [s].
Proof.
  induction s as [|a s IH]; [done|]. cbn.
  case_decide; [done|]. intros Hs. by rewrite IH.
Qed.


End text.

Section digits.
Implicit Types (n d acc : N) (s : string).













Lemma take_sign_digits s :
  all_chars is_digit s = true → take_sign s = (false, s).
Proof.
  destruct s as [|a s]; [done|]. cbn. intros [Ha _]%andb_prop.
  unfold take_sign.
  destruct (decide (a = "-"%char)) as [->|?]; [done|].
  destruct (decide (a = "+"%char)) as [->|?]; [done|].
  destruct a as [[] [] [] [] [] [] [] []]; done.
Qed.


End digits.

Section numbers_as_text.
Implicit Types (x : Qc) (n : N).

Lemma this_Qc_of_Z (z : Z) : this (Qc_of_Z z) = inject_Z z.
Proof. done. Qed.

Lemma Qc_of_N_div_mod n :
  Qc_of_N n = Qc_of_Z 10 * Qc_of_N (n / 10) + Qc_of_N (n mod 10).
Proof.
  to_Q. rewrite (N.div_mod n 10) at 1 by done.
  rewrite N2Z.inj_add, N2Z.inj_mul, inject_Z_plus, inject_Z_mult. done.
Qed.


End numbers_as_text.

Section one_decimal.
Implicit Types (x : Qc).






End one_decimal.

(** ** Saving and loading again *)

Section round_trip.
Implicit Types (d : gmap string Qc) (w : string) (x : Qc).












End round_trip.



(** ** The claims that the code does not meet, at an input *)



(** C8 as stated fails: a word with a tab in it is looked up like any
    other word. *)
Lemma tab_word_looked_up :
  ¬ (∀ resource_stream preprocess_text word lang default_freq scale σ,
       contains_whitespace word = true →
       ¬ is_OK (get_frequency resource_stream preprocess_text word lang
                  default_freq scale σ).1).
Proof.
  intros Hclaim.
  apply (Hclaim example_store id ("a" +:+ String tab "b") "en" 0 1
           initial_state); by vm_compute.
Qed.

(** C5 as stated fails: on binary64 numbers, with the list [the,49] and the
    scale [1], the most frequent word is given [1 / 49 * 49 + 0], which is
    below [1]. *)
Lemma most_frequent_word_below_scale :
  ¬ (∀ items word m scale,
       double_max_freq items = OK m →
       double_get items word 0 = m →
       get_frequency_double items word 0 scale = OK scale).
Proof.
  intros Hclaim.
  specialize (Hclaim [("the", 49%float)] "the" 49%float 1%float
                eq_refl eq_refl).
  apply (f_equal (λ r, match r with
                       | OK v => PrimFloat.ltb v 1
                       | Raise _ => false
                       end)) in Hclaim.
  vm_compute in Hclaim. discriminate.
Qed.

(** ** The properties at concrete inputs *)

Lemma duplicate_keys_witness :
  (∃ d, _load_stream ("a,1" +:+ String newline "a,3") = OK d
        ∧ d !! "a" = Some (Qc_of_Z 3))
  ∧ (∃ d, _load_new_stream id id ("A,1" +:+ String newline "a,3") = OK d
          ∧ d !! "a" = Some (Qc_of_Z 4)).
Proof.
  destruct (duplicate_keys id id) as [Hload Hnew]. split.
  - destruct (_load_stream ("a,1" +:+ String newline "a,3")) as [d|] eqn:Hd;
      [|by vm_compute in Hd].
    exists d. split; [done|].
    destruct (Hload _ _ Hd) as (entries & Hlines & Hkeys).
    assert ((d' ← _load_stream ("a,1" +:+ String newline "a,3");
             OK (d' !! "a")) = OK (Some (Qc_of_Z 3))) as Hval
      by (apply (bool_decide_unpack _); by vm_compute).
    rewrite Hd in Hval. by injection Hval.
  - destruct (_load_new_stream id id ("A,1" +:+ String newline "a,3"))
      as [d|] eqn:Hd; [|by vm_compute in Hd].
    exists d. split; [done|].
    destruct (Hnew _ _ Hd) as (m & entries & Hmode & Hlines & Hkeys).
    assert ((d' ← _load_new_stream id id ("A,1" +:+ String newline "a,3");
             OK (d' !! "a")) = OK (Some (Qc_of_Z 4))) as Hval
      by (apply (bool_decide_unpack _); by vm_compute).
    rewrite Hd in Hval. by injection Hval.
Defined.

Lemma merge_lists_spec_witness :
  ∃ T, merge_lists [ ({["x" := Qc_of_Z 5]}, "_a", Some (Qc_of_Z 100)) ] = OK T
       ∧ ∀ key, T !! key
                = summed (contributions key
                            [ (({["x" := Qc_of_Z 5]}, "_a",
                                Some (Qc_of_Z 100)),
                               Qc_of_Z 100 / Qc_of_Z 5) ]).
Proof.
  destruct merge_lists_spec as (_ & _ & Hfactor & Hmerge & _).
  apply (Hmerge [ ({["x" := Qc_of_Z 5]}, "_a", Some (Qc_of_Z 100)) ]
                [ Qc_of_Z 100 / Qc_of_Z 5 ]).
  constructor; [|constructor]. cbn.
  apply Hfactor.
  - apply insert_non_empty.
  - reflexivity.
  - by vm_compute.
Defined.

Lemma get_frequency_value_witness :
  ∃ v σ',
    get_frequency example_store id "the" "en" 0 (Qc_of_Z 42) initial_state
    = (OK v, σ')
    ∧ ∃ freqs w m,
        (get_wordlist example_store "en" initial_state).1 = OK freqs
        ∧ wordlists σ' !! freqs = Some w
        ∧ max_freq (worddict w) = OK m
        ∧ m ≠ 0
        ∧ v = Qc_of_Z 42 / m * get (worddict w) (lower (id "the")) 0 + 0
        ∧ (get (worddict w) (lower (id "the")) 0 = m →
           v = Qc_of_Z 42 / m * m + 0).
Proof.
  destruct (get_frequency example_store id "the" "en" 0 (Qc_of_Z 42)
              initial_state) as [[v|e] σ'] eqn:Hcall.
  - exists v, σ'. split; [reflexivity|].
    exact (get_frequency_value example_store id "the" "en" 0 (Qc_of_Z 42)
             initial_state σ' v initial_state_ok Hcall).
  - apply (f_equal fst) in Hcall. vm_compute in Hcall. discriminate.
Defined.

Lemma load_once_witness :
  ∃ t σ1,
    load example_store "multi-en.txt" initial_state = (OK t, σ1)
    ∧ let σ2 := loads example_store ["leeds-internet-fr.txt"; "multi-en.txt"]
                  σ1 in
      load example_store "multi-en.txt" σ2 = (OK t, σ2)
      ∧ CACHE σ2 !! "multi-en.txt" = Some t
      ∧ reads_of (resource_name "multi-en.txt") (opened σ2)
        = reads_of (resource_name "multi-en.txt") (opened σ1).
Proof.
  destruct (load example_store "multi-en.txt" initial_state)
    as [[t|e] σ1] eqn:Hload.
  - exists t, σ1. split; [reflexivity|].
    exact (load_once example_store "multi-en.txt" initial_state σ1 t
             ["leeds-internet-fr.txt"; "multi-en.txt"] Hload).
  - apply (f_equal fst) in Hload. vm_compute in Hload. discriminate.
Defined.


Lemma get_frequency_rejects_space_witness :
  ∃ freqs σ1 m σ2,
    get_wordlist example_store "en" initial_state = (OK freqs, σ1)
    ∧ get_max_freq freqs σ1 = (OK m, σ2)
    ∧ m ≠ 0
    ∧ get_frequency example_store id "a b" "en" 0 1 initial_state
      = (Raise (ValueError NotSingleWord), σ2).
Proof.
  destruct (get_wordlist example_store "en" initial_state)
    as [[freqs|e] σ1] eqn:Hget;
    [|apply (f_equal fst) in Hget; vm_compute in Hget; discriminate].
  destruct (get_max_freq freqs σ1) as [[m|e] σ2] eqn:Hmax.
  - assert (m ≠ 0) as Hm0.
    { intros ->.
      assert ((get_frequency example_store id "the" "en" 0 1 initial_state).1
              = Raise ZeroDivisionError) as Hzero.
      { unfold get_frequency. rewrite Hget. unfold mbind, M_bind.
        rewrite Hmax. reflexivity. }
      vm_compute in Hzero. discriminate. }
    exists freqs, σ1, m, σ2. split; [reflexivity|]. split; [exact Hmax|].
    split; [exact Hm0|].
    exact (get_frequency_rejects_space example_store id "a b" "en" 0 1
             initial_state σ1 σ2 freqs m eq_refl Hget Hmax Hm0).
  - assert ((get_frequency example_store id "the" "en" 0 1 initial_state).1
            = Raise e) as Hraise.
    { unfold get_frequency. rewrite Hget. unfold mbind, M_bind.
      rewrite Hmax. reflexivity. }
    vm_compute in Hraise. discriminate.
Defined.


Lemma words_returns_copy_witness :
  let w := {| worddict := {["a" := 1]}; sorted_words_attr := None;
              max_freq_attr := None |} in
  let σ := {| CACHE := ∅; wordlists := {[1%positive := w]}; lists := ∅;
              opened := [] |} in
  ∃ r1 σ1 ws,
    Wordlist_words 1%positive σ = (OK r1, σ1)
    ∧ lists σ !! r1 = None
    ∧ lists σ1 !! r1 = Some ws
    ∧ (sorted_words_attr w = None → ws = sorted_words (worddict w))
    ∧ ∀ σ' owned,
        rtc (client_step 1%positive) (σ1, {[r1]}) (σ', owned) →
        worddict <$> wordlists σ' !! 1%positive = Some (worddict w)
        ∧ (∃ r' σ'', Wordlist_words 1%positive σ' = (OK r', σ'')
                     ∧ lists σ' !! r' = None
                     ∧ lists σ'' !! r' = Some ws)
        ∧ (Wordlist_iteritems 1%positive σ').1
          = OK ((λ word, (word, getitem (worddict w) word)) <$> ws).
Proof.
  intros w σ. apply (words_returns_copy 1%positive w σ).
  - reflexivity.
  - intros m Hm. discriminate.
Defined.

(** * Further properties of the module *)

(** ** The maximum, the length and membership *)

Section maximum.
Implicit Types (d : gmap string Qc) (x y : Qc).

Lemma Qc_max_ge_l x y : x ≤ Qc_max x y.
Proof. unfold Qc_max. case_decide; [by apply Qclt_le_weak|done]. Qed.

Lemma Qc_max_ge_r x y : y ≤ Qc_max x y.
Proof. unfold Qc_max. case_decide; [done|by apply Qcnot_lt_le]. Qed.

Lemma py_max_ge_first x xs : x ≤ py_max x xs.
Proof.
  unfold py_max. revert x. induction xs as [|y xs IH]; intros x; [done|].
  cbn. trans (Qc_max x y); [apply Qc_max_ge_l|apply IH].
Qed.

Lemma py_max_upper_bound x xs y : y ∈ x :: xs → y ≤ py_max x xs.
Proof.
  revert x. induction xs as [|z xs IH]; intros x.
  - intros ->%list_elem_of_singleton. done.
  - intros [->|Hy]%elem_of_cons; [apply py_max_ge_first|].
    change (py_max x (z :: xs)) with (py_max (Qc_max x z) xs).
    apply elem_of_cons in Hy as [->|Hy].
    + trans (Qc_max x z); [apply Qc_max_ge_r|apply py_max_ge_first].
    + apply IH. by right.
Qed.

Lemma max_freq_upper_bound d m word f :
  max_freq d = OK m → d !! word = Some f → f ≤ m.
Proof.
  unfold max_freq, itervalues. case_decide; [done|].
  destruct (map_to_list d) as [|[w v] l] eqn:Hl; [done|].
  cbn. intros [= <-] Hf.
  apply (py_max_upper_bound v l.*2 f).
  change (v :: l.*2) with ((w, v) :: l).*2. rewrite <-Hl.
  apply list_elem_of_fmap. exists (word, f). split; [done|].
  by apply elem_of_map_to_list.
Qed.


Lemma max_freq_empty d : max_freq d = Raise (ValueError EmptyList) ↔ d = ∅.
Proof.
  split.
  - intros Hmax. destruct (decide (d = ∅)) as [|Hne]; [done|].
    apply max_freq_nonempty in Hne as [m Hm]. congruence.
  - intros ->. done.
Qed.

Lemma ranks_before_ge d w1 w2 :
  ranks_before d w1 w2 → getitem d w2 ≤ getitem d w1.
Proof. intros [?|[-> _]]; [by apply Qclt_le_weak|done]. Qed.
End maximum.

(** X1. [max_freq] raises the [ValueError] of the empty list on the empty
    table and on no other; on any other table it returns the frequency of
    the first word of [words()], and no word has a greater one. *)
Theorem max_freq_is_first_word (d : gmap string Qc) :
  (d = ∅ → max_freq d = Raise (ValueError EmptyList))
  ∧ (d ≠ ∅ →
     ∃ word rest m,
       words d = word :: rest
       ∧ max_freq d = OK m
       ∧ d !! word = Some m
       ∧ ∀ word' f, d !! word' = Some f → f ≤ m).
Proof.
  split; [by intros ->%max_freq_empty|]. intros Hne.
  destruct (max_freq_nonempty d Hne) as [m Hm].
  destruct (words d) as [|word rest] eqn:Hwords.
  { apply max_freq_attained in Hm as [w Hw].
    assert (w ∈ words d) as Hin by (apply sorted_words_elem_of; by eexists).
    rewrite Hwords in Hin. by apply elem_of_nil in Hin. }
  exists word, rest, m.
  split_and!; [done..| |intros w' f' Hf'; by eapply max_freq_upper_bound].
  assert (word ∈ words d) as [f Hf]%sorted_words_elem_of
    by (rewrite Hwords; left).
  rewrite Hf. f_equal. apply (anti_symm Qcle).
  - by eapply max_freq_upper_bound.
  - apply max_freq_attained in Hm as [w Hw].
    assert (w ∈ word :: rest) as Hin.
    { rewrite <-Hwords. apply sorted_words_elem_of. by eexists. }
    pose proof (sorted_words_ranked d) as Hsorted.
    unfold words in Hwords. rewrite Hwords in Hsorted.
    apply StronglySorted_inv in Hsorted as [_ Hall].
    apply elem_of_cons in Hin as [->|Hin]; [by simplify_eq|].
    rewrite Forall_forall in Hall. apply Hall, ranks_before_ge in Hin.
    unfold getitem, get in Hin. by rewrite Hw, Hf in Hin.
Qed.

Lemma max_freq_is_first_word_witness :
  ∃ word rest m,
    words ({["x" := Qc_of_Z 5; "y" := Qc_of_Z 7]} : gmap string Qc)
    = word :: rest
    ∧ max_freq {["x" := Qc_of_Z 5; "y" := Qc_of_Z 7]} = OK m
    ∧ ({["x" := Qc_of_Z 5; "y" := Qc_of_Z 7]} : gmap string Qc) !! word
      = Some m
    ∧ ∀ word' f,
        ({["x" := Qc_of_Z 5; "y" := Qc_of_Z 7]} : gmap string Qc) !! word'
        = Some f → f ≤ m.
Proof.
  apply (max_freq_is_first_word {["x" := Qc_of_Z 5; "y" := Qc_of_Z 7]}).
  apply insert_non_empty.
Defined.

(** X2. The length of a table is the number of its [words()], and a word
    is in the table exactly when it is one of them; [get] of any other word
    is the default given. *)
Theorem len_contains_words (d : gmap string Qc) (word : string)
    (default : Qc) :
  len d = length (words d)
  ∧ (contains d word = true ↔ word ∈ words d)
  ∧ (word ∉ words d → get d word default = default).
Proof.
  split_and!.
  - unfold len, words. rewrite sorted_words_keys. unfold keys.
    by rewrite length_fmap, length_map_to_list.
  - unfold contains, words. rewrite bool_decide_eq_true.
    by rewrite sorted_words_elem_of.
  - unfold words, get. rewrite sorted_words_elem_of.
    destruct (d !! word); [|done]. intros []. by eexists.
Qed.

(** ** How the loaders fail, and where they agree *)

Section loaders.
Variable preprocess_text : string → string.
Variable exp10 : Qc → Qc.

Lemma _load_stream_loop_raises lines d0 e :
  _load_stream_loop lines d0 = Raise e ↔
  ∃ good bad rest,
    lines = good ++ bad :: rest
    ∧ Forall (λ line, is_OK (parse_line comma line)) good
    ∧ parse_line comma bad = Raise e.
Proof.
  revert d0. induction lines as [|line lines IH]; intros d0.
  - split; [done|]. intros (good & bad & rest & Hlines & _).
    by destruct good.
  - cbn [_load_stream_loop].
    destruct (parse_line comma line) as [[word freq]|e'] eqn:Hline; cbn.
    + rewrite IH. split.
      * intros (good & bad & rest & -> & Hgood & Hbad).
        exists (line :: good), bad, rest. split_and!; [done| |done].
        constructor; [by rewrite Hline|done].
      * intros (good & bad & rest & Hlines & Hgood & Hbad).
        destruct good as [|line' good]; simplify_eq/=; [congruence|].
        apply Forall_cons in Hgood as [_ Hgood]. by exists good, bad, rest.
    + split.
      * intros [= ->]. exists [], line, lines. by split_and!.
      * intros (good & bad & rest & Hlines & Hgood & Hbad).
        destruct good as [|line' good]; simplify_eq/=; [congruence|].
        apply Forall_cons in Hgood as [Hgood _]. by rewrite Hline in Hgood.
Qed.

Lemma contains_char_rstrip c s :
  contains_char c (rstrip s) = true → contains_char c s = true.
Proof.
  induction s as [|a s IH]; [done|]. cbn.
  case_decide as Ha; [done|].
  destruct (rstrip s) as [|b r] eqn:Hr.
  - destruct (Ascii.is_space a); [done|]. cbn. by case_decide.
  - cbn [contains_char]. case_decide; [done|]. exact IH.
Qed.

Lemma parse_line_OK_contains sep line e :
  parse_line sep line = OK e → contains_char sep line = true.
Proof.
  unfold parse_line. intros Hparse. apply contains_char_rstrip.
  destruct (contains_char sep (rstrip line)) eqn:Hsep; [done|].
  by rewrite (split_none _ _ Hsep) in Hparse.
Qed.

Lemma entries_for_absent key (entries : list (string * Qc)) :
  key ∉ entries.*1 → entries_for key entries = [].
Proof.
  induction entries as [|[w f] entries IH]; [done|].
  rewrite fmap_cons, not_elem_of_cons, entries_for_cons. cbn.
  intros [Hne Hnot]. case_decide; [congruence|by apply IH].
Qed.

Lemma entries_for_NoDup key f (entries : list (string * Qc)) :
  NoDup entries.*1 → (key, f) ∈ entries → entries_for key entries = [f].
Proof.
  induction entries as [|[w f'] entries IH]; intros Hnodup Hin.
  - by apply elem_of_nil in Hin.
  - rewrite fmap_cons in Hnodup. apply NoDup_cons in Hnodup as [Hw Hnodup].
    rewrite entries_for_cons. cbn.
    apply elem_of_cons in Hin as [[= <- <-]|Hin].
    + rewrite decide_True by done. by rewrite entries_for_absent.
    + rewrite decide_False; [by apply IH|].
      intros <-. apply Hw. apply list_elem_of_fmap. by exists (w, f).
Qed.

Lemma loops_agree lines (entries : list (string * Qc)) d0 :
  Forall2 (λ line e, parse_line comma line = OK e) lines entries →
  NoDup entries.*1 →
  (∀ w, w ∈ entries.*1 → lower (preprocess_text w) = w ∧ d0 !! w = None) →
  _load_new_stream_loop preprocess_text exp10 lines (Some Linear) d0
  = _load_stream_loop lines d0.
Proof.
  intros Hall. revert d0.
  induction Hall as [|line [w f] lines entries Hline _ IH];
    intros d0 Hnodup Hwords; [done|].
  rewrite fmap_cons in Hnodup, Hwords.
  apply NoDup_cons in Hnodup as [Hw Hnodup].
  destruct (Hwords w) as [Hnorm Hnone]; [left|].
  cbn [_load_new_stream_loop _load_stream_loop]. unfold parse_new_line.
  cbn [mbind result_bind]. rewrite Hline. cbn. unfold normalize.
  rewrite Hnorm.
  replace (add_to w f d0) with (<[w := f]> d0).
  - apply IH; [done|]. intros w' Hw'.
    destruct (Hwords w') as [? ?]; [by right|]. split; [done|].
    rewrite lookup_insert_ne; [done|]. by intros <-.
  - unfold add_to. rewrite Hnone. cbn. by rewrite Qcplus_0_l.
Qed.
End loaders.

(** X3. [_load_stream] raises exactly when some line does not parse, and
    then with the exception of the first such line; the lines before it
    leave no table behind. *)
Theorem load_stream_first_error (stream : string) (e : exn) :
  _load_stream stream = Raise e ↔
  ∃ good bad rest,
    readlines stream = good ++ bad :: rest
    ∧ Forall (λ line, is_OK (parse_line comma line)) good
    ∧ parse_line comma bad = Raise e.
Proof. apply _load_stream_loop_raises. Qed.

(** X4. On a stream of comma-separated lines whose first line has no tab
    and whose words are all different and left as they are by
    [preprocess_text(word).lower()], the loader of new files gives the table
    of the standard loader: the entries of the stream. *)
Theorem loaders_agree (preprocess_text : string → string) (exp10 : Qc → Qc)
    (stream : string) (entries : list (string * Qc)) :
  Forall2 (λ line e, parse_line comma line = OK e)
          (readlines stream) entries →
  NoDup entries.*1 →
  (∀ e, e ∈ entries → lower (preprocess_text e.1) = e.1) →
  (∀ line, head (readlines stream) = Some line →
           contains_char tab line = false) →
  ∃ d, _load_stream stream = OK d
       ∧ _load_new_stream preprocess_text exp10 stream = OK d
       ∧ ∀ word f, d !! word = Some f ↔ (word, f) ∈ entries.
Proof.
  intros Hall Hnodup Hnorm Htab.
  assert (∃ d, _load_stream stream = OK d) as [d Hd].
  { destruct (_load_stream stream) as [d|e] eqn:Hload; [by eexists|].
    apply _load_stream_loop_raises in Hload
      as (good & bad & rest & Hlines & _ & Hbad).
    rewrite Hlines in Hall.
    apply Forall2_app_inv_l in Hall as (? & ? & _ & Hall & _).
    apply Forall2_cons_inv_l in Hall as (? & ? & Hbad' & _). congruence. }
  exists d. split_and!; [done| |].
  - rewrite <-Hd. unfold _load_new_stream, _load_stream.
    destruct (readlines stream) as [|line lines] eqn:Hlines; [done|].
    assert (_load_new_stream_loop preprocess_text exp10 (line :: lines)
              None ∅
            = _load_new_stream_loop preprocess_text exp10 (line :: lines)
                (Some Linear) ∅) as ->.
    { cbn [_load_new_stream_loop]. unfold detect_mode.
      rewrite (Htab line eq_refl).
      apply Forall2_cons_inv_l in Hall as (e & ? & Hline & _).
      by rewrite (parse_line_OK_contains _ _ _ Hline). }
    apply (loops_agree _ _ _ entries); [done..|].
    intros w [[w' f] [-> Hin]]%list_elem_of_fmap.
    split; [by apply (Hnorm (w', f))|done].
  - apply _load_stream_loop_spec in Hd as (entries' & Hall' & Hkeys).
    assert (entries' = entries) as ->.
    { revert Hall Hall'. generalize (readlines stream). clear.
      intros lines Hall. revert entries'.
      induction Hall as [|line e lines entries Hline _ IH];
        intros entries' Hall'; inversion Hall'; simplify_eq; [done|].
      f_equal; [congruence|by apply IH]. }
    intros word f. rewrite Hkeys, lookup_empty. unfold last_entry. split.
    + destruct (last (entries_for word entries)) as [f'|] eqn:Hlast; [|done].
      intros [= ->]. apply last_Some_elem_of in Hlast.
      unfold entries_for in Hlast.
      apply list_elem_of_fmap in Hlast as [[w' f'] [-> Hin]].
      apply list_elem_of_filter in Hin as [Heq Hin]. cbn in *. by subst.
    + intros Hin. by rewrite (entries_for_NoDup _ _ _ Hnodup Hin).
Qed.

Lemma loaders_agree_witness :
  ∃ d, _load_stream ("a,1" +:+ String newline "b,2.5") = OK d
       ∧ _load_new_stream id id ("a,1" +:+ String newline "b,2.5") = OK d
       ∧ ∀ word f, d !! word = Some f
                   ↔ (word, f) ∈ [("a", Qc_of_Z 1); ("b", Q2Qc (5 # 2))].
Proof.
  apply (loaders_agree id id ("a,1" +:+ String newline "b,2.5")
           [("a", Qc_of_Z 1); ("b", Q2Qc (5 # 2))]).
  - change (readlines ("a,1" +:+ String newline "b,2.5"))
      with ["a,1" +:+ String newline ""; "b,2.5"].
    repeat constructor; apply (bool_decide_unpack _); by vm_compute.
  - by apply (bool_decide_unpack _).
  - intros e He. repeat (apply elem_of_cons in He as [->|He]; [done|]).
    by apply elem_of_nil in He.
  - intros line [= <-]. reflexivity.
Defined.

(** X5. When the first line of a new file has neither a tab nor a comma,
    [_load_new_stream] raises the [ValueError] of the unrecognised format,
    whatever the other lines are. *)
Theorem unknown_format (preprocess_text : string → string)
    (exp10 : Qc → Qc) (stream line : string) :
  head (readlines stream) = Some line →
  contains_char tab line = false →
  contains_char comma line = false →
  _load_new_stream preprocess_text exp10 stream
  = Raise (ValueError UnknownFormat).
Proof.
  intros Hhead Htab Hcomma. unfold _load_new_stream.
  destruct (readlines stream) as [|line' lines]; simplify_eq/=.
  unfold detect_mode. by rewrite Htab, Hcomma.
Qed.

Lemma unknown_format_witness :
  _load_new_stream id id ("the 5" +:+ String newline "a,1")
  = Raise (ValueError UnknownFormat).
Proof.
  apply (unknown_format id id _ ("the 5" +:+ String newline ""));
    reflexivity.
Defined.

(** ** More on merging *)

Section merging_more.
Implicit Types (d T : gmap string Qc) (suffix key word : string).

Lemma length_app_s s t :
  String.length (s +:+ t) = (String.length s + String.length t)%nat.
Proof. induction s as [|a s IH]; [done|]. rewrite app_String. cbn. by rewrite IH. Qed.

Lemma app_inj_r t s1 s2 : s1 +:+ t = s2 +:+ t → s1 = s2.
Proof.
  revert s2. induction s1 as [|a s1 IH]; intros [|b s2] Heq.
  - done.
  - apply (f_equal String.length) in Heq.
    rewrite app_empty_l, app_String in Heq. cbn [String.length] in Heq.
    rewrite length_app_s in Heq. lia.
  - apply (f_equal String.length) in Heq.
    rewrite app_empty_l, app_String in Heq. cbn [String.length] in Heq.
    rewrite length_app_s in Heq. lia.
  - rewrite !app_String in Heq. injection Heq as -> Heq.
    f_equal. by apply IH.
Qed.

Lemma entries_for_nonempty key (entries : list (string * Qc)) :
  entries_for key entries ≠ [] ↔ key ∈ entries.*1.
Proof.
  split.
  - intros Hne. destruct (decide (key ∈ entries.*1)) as [|Hnot]; [done|].
    by apply entries_for_absent in Hnot.
  - intros [[w f] [-> Hin]]%list_elem_of_fmap Hnil. cbn [fst] in Hnil.
    assert (f ∈ entries_for w entries) as Hf.
    { unfold entries_for. apply list_elem_of_fmap. exists (w, f).
      split; [done|]. by apply list_elem_of_filter. }
    rewrite Hnil in Hf. by apply elem_of_nil in Hf.
Qed.

Lemma iteritems_elem_of d word f :
  (word, f) ∈ iteritems d ↔ d !! word = Some f.
Proof.
  unfold iteritems. rewrite list_elem_of_fmap. split.
  - intros (w & Heq & [f' Hf']%sorted_words_elem_of).
    injection Heq as -> ->. by rewrite Hf'.
  - intros Hf. exists word. rewrite Hf. split; [done|].
    apply sorted_words_elem_of. by eexists.
Qed.

Lemma iteritems_keys d : (iteritems d).*1 = sorted_words d.
Proof.
  unfold iteritems. rewrite <-list_fmap_compose. apply list_fmap_id.
Qed.

(** The entries of a table, suffixed and scaled. *)
Lemma scaled_items_NoDup d suffix factor :
  NoDup ((λ '(word, freq), (word +:+ suffix, freq * factor))
           <$> iteritems d).*1.
Proof.
  rewrite <-list_fmap_compose.
  rewrite (list_fmap_ext _ ((λ word, word +:+ suffix) ∘ fst) (iteritems d))
    by by intros ? [??].
  rewrite list_fmap_compose, iteritems_keys.
  apply NoDup_fmap_2; [|apply sorted_words_NoDup].
  intros s1 s2. apply app_inj_r.
Qed.

Lemma contribution_lookup d suffix weight factor word :
  contribution (word +:+ suffix) (d, suffix, weight) factor
  = match d !! word with Some f => [f * factor] | None => [] end.
Proof.
  unfold contribution. cbn [fst snd].
  destruct (d !! word) as [f|] eqn:Hf.
  - apply entries_for_NoDup; [apply scaled_items_NoDup|].
    apply list_elem_of_fmap. exists (word, f). split; [done|].
    by apply iteritems_elem_of.
  - apply entries_for_absent.
    intros [[k x] [Hk [[w f] [[= -> ->] Hin]]%list_elem_of_fmap]]
      %list_elem_of_fmap.
    cbn in Hk. apply app_inj_r in Hk as ->.
    apply iteritems_elem_of in Hin. congruence.
Qed.

Lemma contribution_nonempty key d suffix weight factor :
  contribution key (d, suffix, weight) factor ≠ [] ↔
  ∃ word, is_Some (d !! word) ∧ key = word +:+ suffix.
Proof.
  unfold contribution. rewrite entries_for_nonempty. cbn [fst snd]. split.
  - intros [[k x] [-> [[w f] [[= -> ->] Hin]]%list_elem_of_fmap]]
      %list_elem_of_fmap.
    exists w. split; [|done]. apply iteritems_elem_of in Hin. by eexists.
  - intros (word & [f Hf] & ->). apply list_elem_of_fmap.
    exists (word +:+ suffix, f * factor). split; [done|].
    apply list_elem_of_fmap. exists (word, f). split; [done|].
    by apply iteritems_elem_of.
Qed.

Lemma merge_single d suffix weight factor :
  merge_factor d weight = OK factor →
  ∃ T, merge_lists [(d, suffix, weight)] = OK T
       ∧ (∀ word, T !! (word +:+ suffix) = (λ f, f * factor) <$> d !! word)
       ∧ (∀ key, is_Some (T !! key) → ∃ word, key = word +:+ suffix).
Proof.
  intros Hfactor.
  destruct (merge_lists_loop_spec [(d, suffix, weight)] [factor] ∅)
    as (T & HT & Hkey); [by repeat constructor|].
  exists T. split_and!; [done| |].
  - intros word. rewrite Hkey, lookup_empty, accumulated_None.
    cbn [zip_with]. rewrite contributions_cons, app_nil_r.
    rewrite contribution_lookup. destruct (d !! word) as [f|]; [|done].
    cbn. by rewrite Qcplus_0_l.
  - intros key. rewrite Hkey, lookup_empty, accumulated_None.
    cbn [zip_with]. rewrite contributions_cons, app_nil_r.
    destruct (contribution key (d, suffix, weight) factor) eqn:Hc;
      [by intros [? ?]|].
    intros _.
    assert (contribution key (d, suffix, weight) factor ≠ []) as Hne
      by by rewrite Hc.
    apply contribution_nonempty in Hne as (word & _ & ->). by eexists.
Qed.

Lemma merge_factor_raises d weight e :
  merge_factor d weight = Raise e ↔
  e = ZeroDivisionError ∧ ∃ w, weight = Some w ∧ max_freq d = OK 0.
Proof.
  unfold merge_factor. destruct weight as [w|].
  - case_decide as Hlen.
    + destruct (max_freq_nonempty d) as [m Hm].
      { intros ->. unfold len in Hlen. rewrite map_size_empty in Hlen. lia. }
      rewrite Hm. cbn. unfold float_div. case_decide as Hm0.
      * subst m. split; [intros [= <-]; by eauto|by intros [-> _]].
      * split; [done|]. intros (_ & w' & _ & [= ?]). done.
    + split; [done|]. intros (_ & w' & _ & Hmax).
      unfold max_freq in Hmax. rewrite decide_True in Hmax by lia. done.
  - split; [done|]. by intros (_ & w & ? & _).
Qed.

Lemma merge_lists_loop_raises (specs : list weighted_list) totals e :
  merge_lists_loop specs totals = Raise e ↔
  e = ZeroDivisionError
  ∧ ∃ d suffix w, (d, suffix, Some w) ∈ specs ∧ max_freq d = OK 0.
Proof.
  revert totals.
  induction specs as [|[[d suffix] weight] specs IH]; intros totals.
  - split; [done|]. intros (_ & ? & ? & ? & Hin & _).
    by apply elem_of_nil in Hin.
  - cbn [merge_lists_loop].
    destruct (merge_factor d weight) as [factor|e'] eqn:Hfactor; cbn.
    + rewrite IH. split.
      * intros (-> & d' & s' & w' & Hin & Hmax).
        split; [done|]. exists d', s', w'. split; [by right|done].
      * intros (-> & d' & s' & w' & Hin & Hmax). split; [done|].
        apply elem_of_cons in Hin as [Heq|Hin]; [|by eauto 6].
        simplify_eq.
        assert (merge_factor d (Some w') = Raise ZeroDivisionError)
          as Hraise by (apply merge_factor_raises; by eauto).
        congruence.
    + apply merge_factor_raises in Hfactor as (-> & w & -> & Hmax).
      split.
      * intros [= <-]. split; [done|]. exists d, suffix, w.
        split; [left|done].
      * by intros [-> _].
Qed.

Lemma contributions_nonempty key (specs : list weighted_list) factors :
  Forall2 (λ spec factor, merge_factor spec.1.1 spec.2 = OK factor)
          specs factors →
  contributions key (zip specs factors) ≠ [] ↔
  ∃ d suffix weight word,
    (d, suffix, weight) ∈ specs ∧ is_Some (d !! word)
    ∧ key = word +:+ suffix.
Proof.
  induction 1 as [|[[d suffix] weight] factor specs factors _ _ IH].
  - split; [done|]. intros (? & ? & ? & ? & Hin & _).
    by apply elem_of_nil in Hin.
  - cbn [zip_with]. rewrite contributions_cons. split.
    + intros Hne.
      destruct (contribution key (d, suffix, weight) factor) eqn:Hc.
      * rewrite app_nil_l in Hne.
        apply IH in Hne as (d' & s' & w' & word & Hin & ? & ?).
        exists d', s', w', word. split; [by right|done].
      * assert (contribution key (d, suffix, weight) factor ≠ []) as Hne'
          by by rewrite Hc.
        apply contribution_nonempty in Hne' as (word & ? & ?).
        exists d, suffix, weight, word. split; [left|done].
    + intros (d' & s' & w' & word & Hin & Hword & ->) Hnil.
      apply app_eq_nil in Hnil as [Hnil1 Hnil2].
      apply elem_of_cons in Hin as [Heq|Hin].
      * simplify_eq. revert Hnil1. apply contribution_nonempty. by eauto.
      * revert Hnil2. apply IH. by eauto 8.
Qed.
End merging_more.

(** X6. Merging a single list with no suffix and no target maximum gives
    the list back. *)
Theorem merge_single_unscaled (d : gmap string Qc) :
  merge_lists [(d, "", None)] = OK d.
Proof.
  destruct (merge_single d "" None 1 eq_refl) as (T & -> & Hwords & _).
  f_equal. apply map_eq. intros word.
  specialize (Hwords word). rewrite app_empty_r in Hwords.
  rewrite Hwords. destruct (d !! word) as [f|]; [|done].
  cbn. by rewrite Qcmult_1_r.
Qed.



(** X8. [merge_lists] raises only [ZeroDivisionError], and exactly when one
    of the lists to scale has the maximum zero. *)
Theorem merge_lists_raises (specs : list weighted_list) (e : exn) :
  merge_lists specs = Raise e ↔
  e = ZeroDivisionError
  ∧ ∃ d suffix weight,
      (d, suffix, Some weight) ∈ specs ∧ max_freq d = OK 0.
Proof. apply merge_lists_loop_raises. Qed.

(** X9. The keys of a merged table are the words of the lists, each with
    the suffix of its list. *)
Theorem merge_lists_keys (specs : list weighted_list) (T : gmap string Qc)
    (key : string) :
  merge_lists specs = OK T →
  is_Some (T !! key) ↔
  ∃ d suffix weight word,
    (d, suffix, weight) ∈ specs ∧ is_Some (d !! word)
    ∧ key = word +:+ suffix.
Proof.
  intros Hmerge.
  pose proof Hmerge as [factors Hfactors]%merge_lists_loop_factors.
  destruct (merge_lists_loop_spec specs factors ∅ Hfactors)
    as (T' & HT' & Hkey).
  unfold merge_lists in Hmerge. rewrite Hmerge in HT'. simplify_eq.
  rewrite Hkey, lookup_empty, accumulated_None.
  rewrite <-(contributions_nonempty key specs factors Hfactors).
  destruct (contributions key (zip specs factors)); cbn.
  - split; [by intros [? ?]|done].
  - split; [done|by eexists].
Qed.

Lemma merge_lists_keys_witness :
  ∃ T, merge_lists [({["x" := Qc_of_Z 5]}, "_a", None)] = OK T
       ∧ (is_Some (T !! "x_a") ↔
          ∃ d suffix weight word,
            (d, suffix, weight) ∈ [(({["x" := Qc_of_Z 5]} : gmap string Qc),
                                    "_a", @None Qc)]
            ∧ is_Some (d !! word) ∧ "x_a" = word +:+ suffix).
Proof.
  destruct (merge_lists [({["x" := Qc_of_Z 5]}, "_a", None)])
    as [T|] eqn:Hmerge; [|by vm_compute in Hmerge].
  exists T. split; [reflexivity|].
  exact (merge_lists_keys _ T "x_a" Hmerge).
Defined.

(** ** File names, repeated calls and tagged words *)

Section facade.
Variable resource_stream : string → option string.
Variable preprocess_text : string → string.

Lemma leeds_name_not lang name :
  String.get 0 name ≠ Some "l"%char →
  "leeds-internet-" +:+ lang +:+ ".txt" ≠ name.
Proof. intros Hname Heq. apply Hname. by rewrite <-Heq. Qed.

Lemma wordlist_filename_inj lang1 lang2 :
  wordlist_filename lang1 = wordlist_filename lang2 → lang1 = lang2.
Proof.
  unfold wordlist_filename.
  repeat case_decide; subst; try done; intros Heq;
    try (by apply leeds_name_not in Heq);
    try (symmetry in Heq; by apply leeds_name_not in Heq).
  apply (inj (String.app _)) in Heq. by apply app_inj_r in Heq.
Qed.

(** What [self.max_freq] leaves behind when it returns. *)
Lemma get_max_freq_memo freqs σ m σ' :
  get_max_freq freqs σ = (OK m, σ') →
  CACHE σ' = CACHE σ
  ∧ opened σ' = opened σ
  ∧ ∃ w', wordlists σ' !! freqs = Some w' ∧ max_freq_attr w' = Some m.
Proof.
  unfold get_max_freq, mbind, M_bind, read_wordlist.
  destruct (wordlists σ !! freqs) as [w|] eqn:Hw; [|done].
  destruct (max_freq_attr w) as [m'|] eqn:Hattr.
  - intros [= <- <-]. by eauto.
  - unfold lift. destruct (max_freq (worddict w)) as [m'|] eqn:Hmax; [|done].
    cbn. intros [= <- <-]. cbn. rewrite lookup_insert_eq. by eauto.
Qed.

Lemma get_max_freq_again freqs σ w m :
  wordlists σ !! freqs = Some w → max_freq_attr w = Some m →
  get_max_freq freqs σ = (OK m, σ).
Proof.
  intros Hw Hattr. unfold get_max_freq, mbind, M_bind, read_wordlist.
  by rewrite Hw, Hattr.
Qed.

Lemma get_sorted_words_memo t σ r σ' :
  get_sorted_words t σ = (OK r, σ') →
  ∃ w', wordlists σ' !! t = Some w' ∧ sorted_words_attr w' = Some r.
Proof.
  unfold get_sorted_words, mbind, M_bind, read_wordlist.
  destruct (wordlists σ !! t) as [w|] eqn:Hw; [|done].
  destruct (sorted_words_attr w) as [r'|] eqn:Hattr.
  - intros [= <- <-]. by eauto.
  - cbn. intros [= <- <-]. cbn. rewrite lookup_insert_eq. by eauto.
Qed.

Lemma get_sorted_words_again t σ w r :
  wordlists σ !! t = Some w → sorted_words_attr w = Some r →
  get_sorted_words t σ = (OK r, σ).
Proof.
  intros Hw Hattr. unfold get_sorted_words, mbind, M_bind, read_wordlist.
  by rewrite Hw, Hattr.
Qed.

Lemma rsplit_last_none c s :
  contains_char c s = false → rsplit_last c s = None.
Proof.
  induction s as [|a s IH]; [done|]. cbn.
  case_decide; [done|]. intros Hs. by rewrite IH.
Qed.

Lemma rsplit_last_app c s t :
  contains_char c t = false →
  rsplit_last c (s +:+ String c t) = Some (s, t).
Proof.
  intros Ht. induction s as [|a s IH].
  - rewrite app_empty_l. cbn. rewrite rsplit_last_none by done.
    by rewrite decide_True.
  - rewrite app_String. cbn. by rewrite IH.
Qed.
End facade.

(** X10. Two language codes with the same file are the same code: no two
    languages share an entry of [CACHE]. *)
Theorem wordlist_filename_injective (lang1 lang2 : string) :
  wordlist_filename lang1 = wordlist_filename lang2 → lang1 = lang2.
Proof. apply wordlist_filename_inj. Qed.

Lemma wordlist_filename_injective_witness :
  ("fr" : string) = "fr".
Proof. apply (wordlist_filename_injective "fr" "fr"). reflexivity. Defined.



(** X12. After a call of [get_frequency] has returned, the same call
    returns the same number and leaves the state as it is: the list is
    cached and its maximum memoised, and no resource is opened. *)
Theorem get_frequency_again (resource_stream : string → option string)
    (preprocess_text : string → string) (word lang : string)
    (default_freq scale : Qc) (σ σ' : state) (v : Qc) :
  get_frequency resource_stream preprocess_text word lang default_freq scale σ
  = (OK v, σ') →
  get_frequency resource_stream preprocess_text word lang default_freq scale σ'
  = (OK v, σ').
Proof.
  intros (freqs & σ1 & m & w & Hget & Hmax & Hm0 & Hspace & Hw & ->)
    %get_frequency_OK.
  apply load_OK_cached in Hget.
  apply get_max_freq_memo in Hmax as (Hcache & _ & w' & Hw' & Hattr).
  rewrite Hw in Hw'. injection Hw' as <-.
  unfold get_frequency, get_wordlist.
  rewrite (load_cached _ _ _ freqs) by by rewrite Hcache.
  unfold mbind, M_bind. rewrite (get_max_freq_again _ _ _ _ Hw Hattr).
  unfold lift, float_div. rewrite decide_False by done. rewrite Hspace.
  unfold Wordlist_getitem, mbind, M_bind, read_wordlist. by rewrite Hw.
Qed.

Lemma get_frequency_again_witness :
  ∃ v σ',
    get_frequency example_store id "the" "en" 0 default_scale initial_state
    = (OK v, σ')
    ∧ get_frequency example_store id "the" "en" 0 default_scale σ'
      = (OK v, σ').
Proof.
  destruct (get_frequency example_store id "the" "en" 0 default_scale
              initial_state) as [[v|e] σ'] eqn:Hcall;
    [|apply (f_equal fst) in Hcall; vm_compute in Hcall; discriminate].
  exists v, σ'. split; [reflexivity|].
  exact (get_frequency_again example_store id "the" "en" 0 default_scale
           initial_state σ' v Hcall).
Defined.

(** X13. A [lazy_property] is computed once: after [max_freq] or
    [sorted_words] has been read, reading it again gives the same number,
    or the same list object, and changes nothing. *)
Theorem lazy_property_once (t : loc) (σ σ' : state) :
  (∀ m, get_max_freq t σ = (OK m, σ') → get_max_freq t σ' = (OK m, σ'))
  ∧ (∀ r, get_sorted_words t σ = (OK r, σ') →
          get_sorted_words t σ' = (OK r, σ')).
Proof.
  split.
  - intros m (_ & _ & w' & Hw' & Hattr)%get_max_freq_memo.
    by eapply get_max_freq_again.
  - intros r (w' & Hw' & Hattr)%get_sorted_words_memo.
    by eapply get_sorted_words_again.
Qed.

Lemma lazy_property_once_witness :
  let w := {| worddict := {["a" := 1]}; sorted_words_attr := None;
              max_freq_attr := None |} in
  let σ := {| CACHE := ∅; wordlists := {[1%positive := w]}; lists := ∅;
              opened := [] |} in
  (∃ m σ', get_max_freq 1%positive σ = (OK m, σ')
           ∧ get_max_freq 1%positive σ' = (OK m, σ'))
  ∧ (∃ r σ', get_sorted_words 1%positive σ = (OK r, σ')
             ∧ get_sorted_words 1%positive σ' = (OK r, σ')).
Proof.
  intros w σ. split.
  - destruct (get_max_freq 1%positive σ) as [[m|e] σ'] eqn:Hcall;
      [|apply (f_equal fst) in Hcall; vm_compute in Hcall; discriminate].
    exists m, σ'. split; [reflexivity|].
    by apply (lazy_property_once 1%positive σ σ').
  - destruct (get_sorted_words 1%positive σ) as [[r|e] σ'] eqn:Hcall;
      [|apply (f_equal fst) in Hcall; vm_compute in Hcall; discriminate].
    exists r, σ'. split; [reflexivity|].
    by apply (lazy_property_once 1%positive σ σ').
Defined.

(** X14. [multilingual_word_frequency] splits at the last bar: for a
    language code without a bar, the frequency of [word|lang] is
    [get_frequency(word, lang, default_freq)] with the scale [1e9]; a token
    without a bar raises the [ValueError] of the unpacking and touches
    nothing. *)
Theorem multilingual_word_frequency_split
    (resource_stream : string → option string)
    (preprocess_text : string → string) (default_freq : Qc) (σ : state) :
  (∀ word lang,
     contains_char "|" lang = false →
     multilingual_word_frequency resource_stream preprocess_text
       (word +:+ "|" +:+ lang) default_freq σ
     = get_frequency resource_stream preprocess_text word lang default_freq
         default_scale σ)
  ∧ (∀ multiword,
       contains_char "|" multiword = false →
       multilingual_word_frequency resource_stream preprocess_text
         multiword default_freq σ
       = (Raise (ValueError Unpack), σ)).
Proof.
  split.
  - intros word lang Hlang.
    unfold multilingual_word_frequency, rsplit1, mbind, M_bind, lift.
    change ("|" +:+ lang) with (String "|" lang).
    by rewrite rsplit_last_app.
  - intros multiword Hbar.
    unfold multilingual_word_frequency, rsplit1, mbind, M_bind, lift.
    by rewrite rsplit_last_none.
Qed.

Lemma multilingual_word_frequency_split_witness :
  multilingual_word_frequency example_store id ("the" +:+ "|" +:+ "en") 0
    initial_state
  = get_frequency example_store id "the" "en" 0 default_scale initial_state
  ∧ multilingual_word_frequency example_store id "the" 0 initial_state
    = (Raise (ValueError Unpack), initial_state).
Proof.
  destruct (multilingual_word_frequency_split example_store id 0
              initial_state) as [Hsplit Hnone].
  split; [apply Hsplit|apply Hnone]; reflexivity.
Defined.

(** ** Bringing a new file in *)

Section load_new.
Variable preprocess_text : string → string.
Variable exp10 : Qc → Qc.

(** Saving an instance that has just been made writes the text of its
    dict, and memoises its [sorted_words]. *)
Lemma Wordlist_save_new t d σ :
  wordlists σ !! t = Some {| worddict := d; sorted_words_attr := None;
                             max_freq_attr := None |} →
  ∃ σ', Wordlist_save t σ = (OK (save d), σ')
        ∧ CACHE σ' = CACHE σ
        ∧ opened σ' = opened σ
        ∧ (∃ w', wordlists σ' !! t = Some w' ∧ worddict w' = d)
        ∧ (∀ t', t' ≠ t → wordlists σ' !! t' = wordlists σ !! t').
Proof.
  intros Ht.
  unfold Wordlist_save, get_sorted_words, mbind, M_bind, read_wordlist.
  rewrite Ht. cbn. unfold read_list. cbn [lists]. rewrite lookup_insert_eq.
  cbn [wordlists]. rewrite lookup_insert_eq. cbn.
  eexists. split; [done|]. cbn. split_and!; [done..| |].
  - rewrite lookup_insert_eq. by eauto.
  - intros t' Hne. by rewrite lookup_insert_ne.
Qed.

(** The statements of [load_new] before the file is written: the stream
    is read, the instance made and put into [CACHE]. *)
Lemma load_new_cache filename stream σ :
  (d ← lift (_load_new_stream preprocess_text exp10 stream);
   wordlist ← new_Wordlist d;
   _ ← set_CACHE filename wordlist;
   mret wordlist) σ
  = match _load_new_stream preprocess_text exp10 stream with
    | OK d =>
        let t := fresh (dom (wordlists σ)) in
        (OK t,
         {| CACHE := <[filename := t]> (CACHE σ);
            wordlists := <[t := {| worddict := d; sorted_words_attr := None;
                                   max_freq_attr := None |}]> (wordlists σ);
            lists := lists σ; opened := opened σ |})
    | Raise e => (Raise e, σ)
    end.
Proof.
  unfold mbind at 1, M_bind at 1, lift.
  by destruct (_load_new_stream preprocess_text exp10 stream).
Qed.

(** What a call of [load_new] that returns has done. *)
Lemma load_new_OK path Ω t Ω' :
  load_new preprocess_text exp10 path Ω = (OK t, Ω') →
  ∃ stream d,
    files Ω !! path = Some stream
    ∧ _load_new_stream preprocess_text exp10 stream = OK d
    ∧ t = fresh (dom (wordlists (process Ω)))
    ∧ CACHE (process Ω') = <[basename path := t]> (CACHE (process Ω))
    ∧ opened (process Ω') = opened (process Ω)
    ∧ (∃ w, wordlists (process Ω') !! t = Some w ∧ worddict w = d)
    ∧ files Ω' = <[basename path := save d]> (files Ω).
Proof.
  unfold load_new.
  destruct (files Ω !! path) as [stream|] eqn:Hfile; [|done].
  rewrite load_new_cache.
  destruct (_load_new_stream preprocess_text exp10 stream) as [d|e] eqn:Hd;
    [|done].
  cbv zeta. case_decide as Hwrite; [done|].
  set (t0 := fresh (dom (wordlists (process Ω)))).
  set (σ1 := {| CACHE := _ |}).
  destruct (Wordlist_save_new t0 d σ1) as (σ2 & Hsave & Hc & Ho & Hw & _).
  { subst σ1. cbn. by rewrite lookup_insert_eq. }
  rewrite Hsave. intros [= <- <-]. cbn.
  exists stream, d. split_and!; [done..|by rewrite Hc|by rewrite Ho|done|done].
Qed.

(** What a call of [load_new] that raises has done. *)
Lemma load_new_Raise path Ω e Ω' :
  load_new preprocess_text exp10 path Ω = (Raise e, Ω') →
  files Ω' = files Ω
  ∧ (files Ω !! path = None ∧ e = IOError ∧ Ω' = Ω
     ∨ (∃ stream, files Ω !! path = Some stream
                  ∧ _load_new_stream preprocess_text exp10 stream = Raise e)
       ∧ Ω' = Ω
     ∨ ∃ stream d t,
         files Ω !! path = Some stream
         ∧ _load_new_stream preprocess_text exp10 stream = OK d
         ∧ basename path ∈ unwritable Ω
         ∧ e = IOError
         ∧ wordlists (process Ω) !! t = None
         ∧ CACHE (process Ω') = <[basename path := t]> (CACHE (process Ω))
         ∧ wordlists (process Ω')
           = <[t := {| worddict := d; sorted_words_attr := None;
                       max_freq_attr := None |}]> (wordlists (process Ω))).
Proof.
  unfold load_new.
  destruct (files Ω !! path) as [stream|] eqn:Hfile;
    [|intros [= <- <-]; by eauto].
  rewrite load_new_cache.
  destruct (_load_new_stream preprocess_text exp10 stream) as [d|e'] eqn:Hd.
  - cbv zeta. case_decide as Hwrite.
    + intros [= <- <-]. cbn. split; [done|]. right. right.
      exists stream, d, (fresh (dom (wordlists (process Ω)))).
      split_and!; try done.
      apply not_elem_of_dom, is_fresh.
    + set (t0 := fresh (dom (wordlists (process Ω)))).
      set (σ1 := {| CACHE := _ |}).
      destruct (Wordlist_save_new t0 d σ1) as (σ2 & Hsave & _).
      { subst σ1. cbn. by rewrite lookup_insert_eq. }
      by rewrite Hsave.
  - intros [= <- <-]. cbn. split; [done|]. right. left.
    split; [by eauto|]. by destruct Ω.
Qed.
End load_new.

(** X15. After [load_new(path)] has returned an instance, [load] of the
    last segment of the path returns that instance without opening a
    resource, and the file of that name in the working directory holds the
    text of [save] for the instance. *)
Theorem load_new_then_load (resource_stream : string → option string)
    (preprocess_text : string → string) (exp10 : Qc → Qc)
    (path : string) (Ω Ω' : world) (t : loc) :
  load_new preprocess_text exp10 path Ω = (OK t, Ω') →
  load resource_stream (basename path) (process Ω') = (OK t, process Ω')
  ∧ opened (process Ω') = opened (process Ω)
  ∧ ∃ w, wordlists (process Ω') !! t = Some w
         ∧ files Ω' !! basename path = Some (save (worddict w)).
Proof.
  intros (stream & d & _ & _ & _ & Hcache & Hopened & (w & Hw & <-) & Hfiles)
    %load_new_OK.
  split_and!; [|done|].
  - apply load_cached. by rewrite Hcache, lookup_insert_eq.
  - exists w. split; [done|]. by rewrite Hfiles, lookup_insert_eq.
Qed.

Lemma load_new_then_load_witness :
  let Ω := {| process := initial_state;
              files := {["lists/mine.txt" := "A,1" +:+ String newline "a,3"]};
              unwritable := ∅ |} in
  ∃ t Ω',
    load_new id id "lists/mine.txt" Ω = (OK t, Ω')
    ∧ load example_store (basename "lists/mine.txt") (process Ω')
      = (OK t, process Ω')
    ∧ opened (process Ω') = opened (process Ω)
    ∧ ∃ w, wordlists (process Ω') !! t = Some w
           ∧ files Ω' !! basename "lists/mine.txt"
             = Some (save (worddict w)).
Proof.
  intros Ω.
  destruct (load_new id id "lists/mine.txt" Ω) as [[t|e] Ω'] eqn:Hcall;
    [|apply (f_equal fst) in Hcall; vm_compute in Hcall; discriminate].
  exists t, Ω'. split; [reflexivity|].
  exact (load_new_then_load example_store id id "lists/mine.txt" Ω Ω' t
           Hcall).
Defined.

(** X16. [load_new] takes the place of what was cached: when [CACHE]
    already holds an instance for the last segment of the path, the
    instance [load_new] returns is another one, and it is the one [load]
    returns from then on. *)
Theorem load_new_replaces (resource_stream : string → option string)
    (preprocess_text : string → string) (exp10 : Qc → Qc)
    (path : string) (Ω Ω' : world) (t1 t2 : loc) :
  state_ok (process Ω) →
  CACHE (process Ω) !! basename path = Some t1 →
  load_new preprocess_text exp10 path Ω = (OK t2, Ω') →
  t2 ≠ t1
  ∧ load resource_stream (basename path) (process Ω') = (OK t2, process Ω').
Proof.
  intros [Hcache _] Ht1 Hcall.
  apply load_new_OK in Hcall as (_ & _ & _ & _ & -> & Hnew & _). split.
  - apply Hcache in Ht1. apply elem_of_dom in Ht1.
    intros <-. by apply is_fresh in Ht1.
  - apply load_cached. by rewrite Hnew, lookup_insert_eq.
Qed.

Lemma load_new_replaces_witness :
  let σ := (load example_store "multi-en.txt" initial_state).2 in
  let Ω := {| process := σ;
              files := {["lists/multi-en.txt" := "a,3"]};
              unwritable := ∅ |} in
  ∃ t1 t2 Ω',
    CACHE σ !! basename "lists/multi-en.txt" = Some t1
    ∧ load_new id id "lists/multi-en.txt" Ω = (OK t2, Ω')
    ∧ t2 ≠ t1
    ∧ load example_store (basename "lists/multi-en.txt") (process Ω')
      = (OK t2, process Ω').
Proof.
  intros σ Ω.
  destruct (CACHE σ !! basename "lists/multi-en.txt") as [t1|] eqn:Ht1;
    [|vm_compute in Ht1; discriminate].
  destruct (load_new id id "lists/multi-en.txt" Ω) as [[t2|e] Ω'] eqn:Hcall;
    [|apply (f_equal fst) in Hcall; vm_compute in Hcall; discriminate].
  exists t1, t2, Ω'. split; [reflexivity|]. split; [reflexivity|].
  apply (load_new_replaces example_store id id "lists/multi-en.txt" Ω Ω'
           t1 t2); [|exact Ht1|exact Hcall].
  apply load_state_ok, initial_state_ok.
Defined.

(** X17. A call of [load_new] that raises leaves the files as they were.
    It raises [IOError] when there is no file at the path, and what
    [_load_new_stream] raises on the file when that raises; the cache and
    the instances are then as they were.  Otherwise the file of the last
    segment of the path could not be opened for writing: the call raises
    [IOError] after the new instance has been put into [CACHE], and [load]
    of that name returns the instance, of which no file has been saved. *)
Theorem load_new_raises (resource_stream : string → option string)
    (preprocess_text : string → string)
    (exp10 : Qc → Qc) (path : string) (Ω Ω' : world) (e : exn) :
  load_new preprocess_text exp10 path Ω = (Raise e, Ω') →
  files Ω' = files Ω
  ∧ (files Ω !! path = None ∧ e = IOError ∧ Ω' = Ω
     ∨ (∃ stream, files Ω !! path = Some stream
                  ∧ _load_new_stream preprocess_text exp10 stream = Raise e)
       ∧ Ω' = Ω
     ∨ ∃ stream d t,
         files Ω !! path = Some stream
         ∧ _load_new_stream preprocess_text exp10 stream = OK d
         ∧ basename path ∈ unwritable Ω
         ∧ e = IOError
         ∧ wordlists (process Ω) !! t = None
         ∧ dicts (process Ω') = <[t := d]> (dicts (process Ω))
         ∧ load resource_stream (basename path) (process Ω')
           = (OK t, process Ω')).
Proof.
  intros [Hfiles Hcases]%load_new_Raise. split; [done|].
  destruct Hcases as [?|[?|(stream & d & t & ? & ? & ? & ? & ? & Hc & Hw)]];
    [by left|by right; left|].
  right. right. exists stream, d, t. split_and!; try done.
  - unfold dicts. by rewrite Hw, fmap_insert.
  - apply load_cached. by rewrite Hc, lookup_insert_eq.
Qed.

Lemma load_new_raises_witness :
  let Ω := {| process := initial_state;
              files := {["lists/mine.txt" := "a,3"]};
              unwritable := {["mine.txt"]} |} in
  ∃ e Ω',
    load_new id id "lists/mine.txt" Ω = (Raise e, Ω')
    ∧ files Ω' = files Ω
    ∧ (files Ω !! "lists/mine.txt" = None ∧ e = IOError ∧ Ω' = Ω
       ∨ (∃ stream, files Ω !! "lists/mine.txt" = Some stream
                    ∧ _load_new_stream id id stream = Raise e)
         ∧ Ω' = Ω
       ∨ ∃ stream d t,
           files Ω !! "lists/mine.txt" = Some stream
           ∧ _load_new_stream id id stream = OK d
           ∧ basename "lists/mine.txt" ∈ unwritable Ω
           ∧ e = IOError
           ∧ wordlists (process Ω) !! t = None
           ∧ dicts (process Ω') = <[t := d]> (dicts (process Ω))
           ∧ load example_store (basename "lists/mine.txt") (process Ω')
             = (OK t, process Ω')).
Proof.
  intros Ω.
  destruct (load_new id id "lists/mine.txt" Ω) as [[t|e] Ω'] eqn:Hcall;
    [apply (f_equal fst) in Hcall; vm_compute in Hcall; discriminate|].
  exists e, Ω'. split; [reflexivity|].
  exact (load_new_raises example_store id id "lists/mine.txt" Ω Ω' e Hcall).
Defined.

(** ** Merging instances *)

Section merge_instances.
Implicit Types (σ : state) (t : loc) (w : Wordlist) (d : gmap string Qc).

Lemma dicts_lookup σ t d :
  dicts σ !! t = Some d ↔ ∃ w, wordlists σ !! t = Some w ∧ worddict w = d.
Proof.
  unfold dicts. rewrite lookup_fmap. destruct (wordlists σ !! t) as [w|].
  - cbn. split; [intros [= <-]; by eauto|by intros (? & [= <-] & <-)].
  - cbn. split; [done|by intros (? & ? & _)].
Qed.

(** Updating the memoised attributes of an instance keeps the dicts. *)
Lemma dicts_set_memo σ t w w' ls :
  wordlists σ !! t = Some w → worddict w' = worddict w →
  dicts {| CACHE := CACHE σ; wordlists := <[t := w']> (wordlists σ);
           lists := ls; opened := opened σ |}
  = dicts σ.
Proof.
  intros Hw Hdict. unfold dicts. cbn. rewrite fmap_insert, Hdict.
  apply insert_id. by rewrite lookup_fmap, Hw.
Qed.

Lemma get_max_freq_refines σ t w :
  heap_ok σ → wordlists σ !! t = Some w →
  ∃ σ', get_max_freq t σ = (max_freq (worddict w), σ')
        ∧ heap_ok σ' ∧ dicts σ' = dicts σ ∧ CACHE σ' = CACHE σ.
Proof.
  intros Hok Hw. unfold get_max_freq, mbind, M_bind, read_wordlist.
  rewrite Hw. destruct (max_freq_attr w) as [m|] eqn:Hattr.
  - exists σ. destruct (Hok t w Hw) as [Hmax _].
    by rewrite (Hmax m Hattr).
  - unfold lift. destruct (max_freq (worddict w)) as [m|e] eqn:Hmax.
    + cbn. eexists. split; [done|]. split_and!; [|by eapply dicts_set_memo|done].
      intros t' w' Hw'. cbn in Hw'.
      destruct (decide (t = t')) as [<-|Hne].
      * rewrite lookup_insert_eq in Hw'. injection Hw' as <-. cbn.
        destruct (Hok t w Hw) as [_ Hsorted].
        split; [by intros ? [= <-]|done].
      * rewrite lookup_insert_ne in Hw' by done. by apply (Hok t').
    + by exists σ.
Qed.

Lemma Wordlist_iteritems_refines σ t w :
  heap_ok σ → wordlists σ !! t = Some w →
  ∃ σ', Wordlist_iteritems t σ = (OK (iteritems (worddict w)), σ')
        ∧ heap_ok σ' ∧ dicts σ' = dicts σ ∧ CACHE σ' = CACHE σ.
Proof.
  intros Hok Hw.
  unfold Wordlist_iteritems, get_sorted_words, mbind, M_bind, read_wordlist.
  rewrite Hw. destruct (sorted_words_attr w) as [r|] eqn:Hattr.
  - exists σ. destruct (Hok t w Hw) as [_ Hsorted].
    cbn. unfold read_list. rewrite (Hsorted r Hattr), Hw. done.
  - cbn. unfold read_list. cbn [lists]. rewrite lookup_insert_eq.
    cbn [wordlists]. rewrite lookup_insert_eq. cbn.
    eexists. split; [done|].
    split_and!; [|by eapply dicts_set_memo|done].
    intros t' w' Hw'. cbn in Hw'. cbn [lists].
    assert (∀ (r : loc) (l : list string), lists σ !! r = Some l →
                   <[fresh (dom (lists σ)) := sorted_words (worddict w)]>
                     (lists σ) !! r = Some l) as Hkeep.
    { intros r l Hr. rewrite lookup_insert_ne; [done|].
      intros <-. by rewrite fresh_list in Hr. }
    destruct (decide (t = t')) as [<-|Hne].
    + rewrite lookup_insert_eq in Hw'. injection Hw' as <-. cbn.
      destruct (Hok t w Hw) as [Hmax _].
      split; [done|]. intros r [= <-]. by rewrite lookup_insert_eq.
    + rewrite lookup_insert_ne in Hw' by done.
      destruct (Hok t' w' Hw') as [Hmax Hsorted].
      split; [done|]. intros r Hr. by apply Hkeep, Hsorted.
Qed.

Lemma Wordlist_len_eq σ t w :
  wordlists σ !! t = Some w → Wordlist_len t σ = (OK (len (worddict w)), σ).
Proof.
  intros Hw. unfold Wordlist_len, mbind, M_bind, read_wordlist.
  by rewrite Hw.
Qed.

Lemma merge_factor_on_refines σ t w weight :
  heap_ok σ → wordlists σ !! t = Some w →
  ∃ σ', merge_factor_on t weight σ = (merge_factor (worddict w) weight, σ')
        ∧ heap_ok σ' ∧ dicts σ' = dicts σ ∧ CACHE σ' = CACHE σ.
Proof.
  intros Hok Hw. unfold merge_factor_on, merge_factor.
  destruct weight as [x|]; [|by exists σ].
  unfold mbind, M_bind. rewrite (Wordlist_len_eq σ t w Hw).
  case_decide; [|by exists σ].
  destruct (get_max_freq_refines σ t w Hok Hw) as (σ' & Hget & ? & ? & ?).
  rewrite Hget. exists σ'. split; [|done].
  by destruct (max_freq (worddict w)).
Qed.

Lemma merge_lists_on_loop_refines σ entries (specs : list weighted_list)
    totals :
  heap_ok σ → Forall2 (resolves σ) entries specs →
  ∃ σ', merge_lists_on_loop entries totals σ
        = (merge_lists_loop specs totals, σ')
        ∧ heap_ok σ' ∧ dicts σ' = dicts σ ∧ CACHE σ' = CACHE σ.
Proof.
  intros Hok Hall. revert σ specs totals Hok Hall.
  induction entries as [|[[t suffix] weight] entries IH];
    intros σ specs totals Hok Hall.
  - apply Forall2_nil_inv_l in Hall as ->. by exists σ.
  - apply Forall2_cons_inv_l in Hall
      as ([[d suffix'] weight'] & specs' & (Hd & Hs & Hwt) & Hall & ->).
    cbn in Hd, Hs, Hwt. subst suffix' weight'.
    apply dicts_lookup in Hd as (w & Hw & <-).
    cbn [merge_lists_on_loop merge_lists_loop].
    destruct (merge_factor_on_refines σ t w weight Hok Hw)
      as (σ1 & Hfactor & Hok1 & Hdicts1 & Hcache1).
    unfold mbind at 1, M_bind at 1. rewrite Hfactor.
    destruct (merge_factor (worddict w) weight) as [factor|e]; cbn;
      [|by exists σ1].
    assert (∃ w1, wordlists σ1 !! t = Some w1 ∧ worddict w1 = worddict w)
      as (w1 & Hw1 & Hdict1).
    { apply dicts_lookup. rewrite Hdicts1. apply dicts_lookup. by eauto. }
    destruct (Wordlist_iteritems_refines σ1 t w1 Hok1 Hw1)
      as (σ2 & Hitems & Hok2 & Hdicts2 & Hcache2).
    unfold mbind at 1, M_bind at 1. rewrite Hitems, Hdict1.
    destruct (IH σ2 specs'
                (merge_add suffix factor totals (iteritems (worddict w)))
                Hok2) as (σ3 & Hloop & Hok3 & Hdicts3 & Hcache3).
    { eapply Forall2_impl; [exact Hall|]. intros entry spec. unfold resolves.
      by rewrite Hdicts2, Hdicts1. }
    exists σ3. split; [done|]. split_and!; [done|congruence|congruence].
Qed.
End merge_instances.

(** X18. On instances whose memoised attributes are those of their dicts,
    [merge_lists] does what it does on the dicts: it returns a new instance
    with the merged table, or raises the same exception, and the dicts of
    the instances it was given are as before. *)
Theorem merge_lists_on_refines (σ : state)
    (entries : list (loc * string * option Qc))
    (specs : list weighted_list) :
  heap_ok σ → Forall2 (resolves σ) entries specs →
  ∃ σ',
    match merge_lists specs with
    | OK T =>
        ∃ t, merge_lists_on entries σ = (OK t, σ')
             ∧ wordlists σ !! t = None
             ∧ dicts σ' = <[t := T]> (dicts σ)
             ∧ heap_ok σ'
    | Raise e =>
        merge_lists_on entries σ = (Raise e, σ') ∧ dicts σ' = dicts σ
    end.
Proof.
  intros Hok Hall.
  destruct (merge_lists_on_loop_refines σ entries specs ∅ Hok Hall)
    as (σ1 & Hloop & Hok1 & Hdicts1 & _).
  unfold merge_lists_on, merge_lists, mbind, M_bind. rewrite Hloop.
  destruct (merge_lists_loop specs ∅) as [T|e]; [|by exists σ1].
  unfold new_Wordlist. eexists. eexists. split; [done|]. cbn.
  assert (wordlists σ1 !! fresh (dom (wordlists σ1)) = None) as Hfresh
    by apply not_elem_of_dom, is_fresh.
  split_and!.
  - assert (dicts σ !! fresh (dom (wordlists σ1)) = None) as Hnone.
    { rewrite <-Hdicts1. unfold dicts. by rewrite lookup_fmap, Hfresh. }
    unfold dicts in Hnone. rewrite lookup_fmap in Hnone.
    by destruct (wordlists σ !! _).
  - unfold dicts in *. cbn [wordlists]. by rewrite fmap_insert, Hdicts1.
  - intros t' w' Hw'. cbn in Hw'.
    destruct (decide (fresh (dom (wordlists σ1)) = t')) as [<-|Hne].
    + rewrite lookup_insert_eq in Hw'. by injection Hw' as <-.
    + rewrite lookup_insert_ne in Hw' by done. by apply (Hok1 t').
Qed.

Lemma merge_lists_on_refines_witness :
  let w := {| worddict := {["x" := Qc_of_Z 5]}; sorted_words_attr := None;
              max_freq_attr := None |} in
  let σ := {| CACHE := ∅; wordlists := {[1%positive := w]}; lists := ∅;
              opened := [] |} in
  ∃ σ',
    match merge_lists [({["x" := Qc_of_Z 5]}, "_a", Some (Qc_of_Z 100))] with
    | OK T =>
        ∃ t, merge_lists_on [(1%positive, "_a", Some (Qc_of_Z 100))] σ
             = (OK t, σ')
             ∧ wordlists σ !! t = None
             ∧ dicts σ' = <[t := T]> (dicts σ)
             ∧ heap_ok σ'
    | Raise e =>
        merge_lists_on [(1%positive, "_a", Some (Qc_of_Z 100))] σ
        = (Raise e, σ')
        ∧ dicts σ' = dicts σ
    end.
Proof.
  intros w σ.
  apply (merge_lists_on_refines σ [(1%positive, "_a", Some (Qc_of_Z 100))]
           [({["x" := Qc_of_Z 5]}, "_a", Some (Qc_of_Z 100))]).
  - intros t w' Hw'. cbn in Hw'.
    apply lookup_singleton_Some in Hw' as [<- <-].
    split; intros ? Hattr; discriminate.
  - repeat constructor.
Defined.

(** ** Lists of several languages *)

Section several_languages.
Variable resource_stream : string → option string.
Implicit Types (σ : state) (t : loc) (d : gmap string Qc).

Lemma load_heap_ok filename σ :
  heap_ok σ → heap_ok (load resource_stream filename σ).2.
Proof.
  intros Hok.
  destruct (load_cases resource_stream filename σ)
    as [| |text d Hnone Htext Hd t]; cbn; [done..|].
  intros t' w' Hw'. cbn in Hw'. cbn [lists].
  destruct (decide (t = t')) as [<-|Hne].
  - rewrite lookup_insert_eq in Hw'. by injection Hw' as <-.
  - rewrite lookup_insert_ne in Hw' by done. by apply (Hok t').
Qed.

Lemma load_grows filename σ :
  CACHE σ ⊆ CACHE (load resource_stream filename σ).2
  ∧ dicts σ ⊆ dicts (load resource_stream filename σ).2.
Proof.
  destruct (load_cases resource_stream filename σ)
    as [| |text d Hnone Htext Hd t]; cbn; [done..|].
  split.
  - by apply insert_subseteq.
  - unfold dicts. cbn. rewrite fmap_insert. apply insert_subseteq.
    rewrite lookup_fmap.
    assert (wordlists σ !! t = None) as ->
      by apply not_elem_of_dom, is_fresh.
    done.
Qed.

Lemma load_OK_dict filename σ t σ' :
  state_ok σ → load resource_stream filename σ = (OK t, σ') →
  CACHE σ' !! filename = Some t ∧ is_Some (dicts σ' !! t).
Proof.
  intros Hok Hload. pose proof (load_OK_cached _ _ _ _ _ Hload) as Hc.
  split; [done|].
  pose proof (load_state_ok resource_stream filename σ Hok) as [Hcache _].
  rewrite Hload in Hcache. cbn in Hcache.
  destruct (Hcache _ _ Hc) as [w Hw]. exists (worddict w).
  apply dicts_lookup. by eauto.
Qed.

(** What the list comprehension of [multilingual_wordlist] gives. *)
Lemma load_languages langs scale σ entries σ1 :
  state_ok σ → heap_ok σ →
  mapM (λ lang, t ← get_wordlist resource_stream lang;
                mret (t, "|" +:+ lang, Some scale)) langs σ
  = (OK entries, σ1) →
  state_ok σ1 ∧ heap_ok σ1
  ∧ CACHE σ ⊆ CACHE σ1 ∧ dicts σ ⊆ dicts σ1
  ∧ ∃ ds,
      Forall2 (resolves σ1) entries
        (zip_with (λ lang d, (d, "|" +:+ lang, Some scale)) langs ds)
      ∧ Forall2 (λ lang d,
                   ∃ t, CACHE σ1 !! wordlist_filename lang = Some t
                        ∧ dicts σ1 !! t = Some d) langs ds.
Proof.
  revert σ entries. induction langs as [|lang langs IH];
    intros σ entries Hok Hheap Hmap.
  - cbn in Hmap. injection Hmap as <- <-.
    split_and!; [done..|]. exists []. split; constructor.
  - cbn [mapM] in Hmap. unfold mbind at 1, M_bind at 1 in Hmap.
    unfold mbind at 1, M_bind at 1, get_wordlist in Hmap.
    destruct (load resource_stream (wordlist_filename lang) σ)
      as [[t|e] σa] eqn:Hload; [|done].
    cbn [mret M_ret] in Hmap.
    unfold mbind at 1, M_bind at 1 in Hmap.
    destruct (@mapM M _ _ _ _ _ langs σa) as [[entries'|e] σb] eqn:Hrest;
      [|done].
    injection Hmap as <- <-.
    pose proof (load_state_ok resource_stream (wordlist_filename lang) σ Hok)
      as Hoka.
    pose proof (load_heap_ok (wordlist_filename lang) σ Hheap) as Hheapa.
    pose proof (load_grows (wordlist_filename lang) σ) as [Hca Hda].
    rewrite Hload in Hoka, Hheapa, Hca, Hda. cbn in Hoka, Hheapa, Hca, Hda.
    destruct (load_OK_dict _ _ _ _ Hok Hload) as [Hct [d Hd]].
    destruct (IH σa entries' Hoka Hheapa Hrest)
      as (Hokb & Hheapb & Hcb & Hdb & ds & Hres & Hlangs).
    split_and!; [done|done|by etrans|by etrans|].
    exists (d :: ds). split.
    + constructor; [|done]. split_and!; [|done..]. cbn.
      by eapply lookup_weaken.
    + constructor; [|done]. exists t. split; by eapply lookup_weaken.
Qed.
End several_languages.

(** X19. From a consistent state, the instance [multilingual_wordlist]
    returns is new and holds the merge of the cached lists of the
    languages, each with the suffix of a bar and its language code and the
    target maximum [scale]. *)
Theorem multilingual_wordlist_merges
    (resource_stream : string → option string) (langs : list string)
    (scale : Qc) (σ σ' : state) (t : loc) :
  state_ok σ → heap_ok σ →
  multilingual_wordlist resource_stream langs scale σ = (OK t, σ') →
  ∃ ds T,
    Forall2 (λ lang d,
               ∃ t_lang, CACHE σ' !! wordlist_filename lang = Some t_lang
                         ∧ dicts σ' !! t_lang = Some d) langs ds
    ∧ merge_lists (zip_with (λ lang d, (d, "|" +:+ lang, Some scale))
                            langs ds) = OK T
    ∧ dicts σ' !! t = Some T
    ∧ wordlists σ !! t = None.
Proof.
  intros Hok Hheap. unfold multilingual_wordlist, mbind, M_bind.
  destruct (@mapM M _ _ _ _ _ langs σ) as [[entries|e] σ1] eqn:Hmap;
    [|done].
  destruct (load_languages resource_stream langs scale σ entries σ1
              Hok Hheap Hmap)
    as (Hok1 & Hheap1 & Hc1 & Hd1 & ds & Hres & Hlangs).
  destruct (merge_lists_on_loop_refines σ1 entries _ ∅ Hheap1 Hres)
    as (σ2 & Hloop & Hheap2 & Hdicts2 & Hcache2).
  unfold merge_lists_on, mbind, M_bind. rewrite Hloop.
  fold (merge_lists (zip_with (λ lang d, (d, "|" +:+ lang, Some scale))
                              langs ds)).
  destruct (merge_lists _) as [T|e] eqn:Hmerge; [|done].
  unfold new_Wordlist. intros [= <- <-].
  assert (dicts σ2 !! fresh (dom (wordlists σ2)) = None) as Hfresh.
  { unfold dicts. rewrite lookup_fmap.
    assert (wordlists σ2 !! fresh (dom (wordlists σ2)) = None) as ->
      by apply not_elem_of_dom, is_fresh.
    done. }
  exists ds, T. split_and!; [|done| |].
  - eapply Forall2_impl; [exact Hlangs|]. intros lang d (tl & Hct & Hdt).
    exists tl. cbn [CACHE]. split; [by rewrite Hcache2|].
    unfold dicts. cbn [wordlists]. rewrite fmap_insert.
    rewrite lookup_insert_ne; [by rewrite <-Hdicts2 in Hdt|].
    intros Heq. rewrite <-Heq, <-Hdicts2, Hfresh in Hdt. done.
  - unfold dicts. cbn [wordlists]. by rewrite fmap_insert, lookup_insert_eq.
  - rewrite Hdicts2 in Hfresh.
    assert (dicts σ !! fresh (dom (wordlists σ2)) = None) as Hnone.
    { destruct (dicts σ !! _) as [d|] eqn:Hd; [|done].
      by rewrite (lookup_weaken _ _ _ _ Hd Hd1) in Hfresh. }
    unfold dicts in Hnone. rewrite lookup_fmap in Hnone.
    by destruct (wordlists σ !! _).
Qed.

Lemma multilingual_wordlist_merges_witness :
  ∃ t σ' ds T,
    multilingual_wordlist example_store ["en"] default_scale initial_state
    = (OK t, σ')
    ∧ Forall2 (λ lang d,
                 ∃ t_lang, CACHE σ' !! wordlist_filename lang = Some t_lang
                           ∧ dicts σ' !! t_lang = Some d) ["en"] ds
    ∧ merge_lists (zip_with (λ lang d, (d, "|" +:+ lang, Some default_scale))
                            ["en"] ds) = OK T
    ∧ dicts σ' !! t = Some T
    ∧ wordlists initial_state !! t = None.
Proof.
  destruct (multilingual_wordlist example_store ["en"] default_scale
              initial_state) as [[t|e] σ'] eqn:Hcall;
    [|apply (f_equal fst) in Hcall; vm_compute in Hcall; discriminate].
  destruct (multilingual_wordlist_merges example_store ["en"] default_scale
              initial_state σ' t initial_state_ok)
    as (ds & T & H); [|exact Hcall|].
  - intros t' w' Hw'. cbn in Hw'. by rewrite lookup_empty in Hw'.
  - exists t, σ', ds, T. split; [reflexivity|exact H].
Defined.
